(** * Path: a POSIX-style path library for the browser (src/src/Path.ts)

    A shallow embedding of the functions of [Path.ts] and of the [Path]
    wrapper class, together with the properties its description states.

    A JavaScript string is a finite sequence of UTF-16 code units; it is
    modelled as a list of integers.  The host values the library reads
    ([window.location.origin], [document.location.pathname]) are fields of a
    [Host] record passed to the functions that read them. *)

From Stdlib Require Import Ascii String ZArith List Bool Lia.
Import ListNotations.

(** ** JavaScript strings and the built-ins the library calls *)

Definition codeUnit := Z.
Definition jsstring := list codeUnit.

(** The code unit of an ASCII character, and the string of an ASCII literal. *)
Definition chr (a : ascii) : codeUnit := Z.of_N (N_of_ascii a).
Definition str (s : string) : jsstring := map chr (list_ascii_of_string s).

Definition slash : codeUnit := 47%Z.       (* "/" *)
Definition backslash : codeUnit := 92%Z.   (* "\\" *)
Definition dot : codeUnit := 46%Z.         (* "." *)
Definition percent : codeUnit := 37%Z.     (* "%" *)

Module JS.

(** [a === b] on strings. *)
Fixpoint streq (a b : jsstring) : bool :=
  match a, b with
  | [], [] => true
  | x :: a', y :: b' => (x =? y)%Z && streq a' b'
  | _, _ => false
  end.

(** [s.startsWith(prefix)]. *)
Fixpoint startsWith (s prefix : jsstring) {struct prefix} : bool :=
  match prefix, s with
  | [], _ => true
  | _ :: _, [] => false
  | y :: prefix', x :: s' => (x =? y)%Z && startsWith s' prefix'
  end.

(** [s.endsWith(suffix)]: the last [suffix.length] code units of [s] are
    compared with [suffix]; false when [s] is shorter. *)
Definition endsWith (s suffix : jsstring) : bool :=
  (length suffix <=? length s)%nat
  && streq (skipn (length s - length suffix) s) suffix.

(** [arr.join(sep)]. *)
Fixpoint arrayJoin (arr : list jsstring) (sep : jsstring) : jsstring :=
  match arr with
  | [] => []
  | [x] => x
  | x :: rest => x ++ sep ++ arrayJoin rest sep
  end.

(** [a || b] on strings: the empty string is falsy. *)
Definition orElse (a b : jsstring) : jsstring :=
  match a with [] => b | _ :: _ => a end.

(** [s[0] === c] for a one-unit string [c]; [s[0]] is [undefined] on the
    empty string and the test fails. *)
Definition firstIs (s : jsstring) (c : codeUnit) : bool :=
  match s with
  | [] => false
  | x :: _ => (x =? c)%Z
  end.

(** [arr[arr.length - 1]], [undefined] (here [None]) on the empty array;
    it is also what [arr.pop()] returns, [removelast] being what it leaves. *)
Fixpoint lastOpt {A} (arr : list A) : option A :=
  match arr with
  | [] => None
  | [x] => Some x
  | _ :: rest => lastOpt rest
  end.

(** [s.lastIndexOf(c)] for a one-unit string [c]: the greatest index of
    [c] in [s], or -1. *)
Fixpoint lastIndexOf (s : jsstring) (c : codeUnit) : Z :=
  match s with
  | [] => (-1)%Z
  | x :: s' =>
      let r := lastIndexOf s' c in
      if (0 <=? r)%Z then (r + 1)%Z
      else if (x =? c)%Z then 0%Z else (-1)%Z
  end.

(** [s.substring(start)] and [s.substring(0, stop)], for indices in range. *)
Definition substringFrom (s : jsstring) (start : Z) : jsstring :=
  skipn (Z.to_nat start) s.
Definition substringTo (s : jsstring) (stop : nat) : jsstring :=
  firstn stop s.

End JS.

(** ** The host environment *)

Record Host := mkHost {
  origin : jsstring;      (* window.location.origin *)
  pathname : jsstring     (* document.location.pathname *)
}.

(** ** ParsedPath and FormatInputPathObject *)

Record ParsedPath := mkParsedPath {
  root : jsstring;
  dir : jsstring;
  base : jsstring;
  ext : jsstring;
  name : jsstring
}.

(** [Partial<ParsedPath>]: every field may be absent. *)
Record FormatInputPathObject := mkFormatInput {
  f_root : option jsstring;
  f_dir : option jsstring;
  f_base : option jsstring;
  f_ext : option jsstring;
  f_name : option jsstring
}.

(** ** pathSplit *)

Definition isSeparator (char : codeUnit) : bool :=
  (char =? slash)%Z || (char =? backslash)%Z.

Definition isEmpty (s : jsstring) : bool :=
  match s with [] => true | _ :: _ => false end.

(** The loop of [pathSplit], with its two variables [arr] and [current].
    [for (const char of path)] walks code points; a separator is one code
    unit and is no half of a surrogate pair, and [current += char] appends
    the units of [char], so walking code units builds the same array. *)
Fixpoint pathSplit_loop (keepEmpty : bool) (path : jsstring)
    (arr : list jsstring) (current : jsstring) : list jsstring :=
  match path with
  | [] =>
      if negb (length current =? 0)%nat then arr ++ [current] else arr
  | char :: rest =>
      if isSeparator char then
        if negb (isEmpty current) || keepEmpty
        then pathSplit_loop keepEmpty rest (arr ++ [current]) []
        else pathSplit_loop keepEmpty rest arr current
      else pathSplit_loop keepEmpty rest arr (current ++ [char])
  end.

Definition pathSplit (path : jsstring) (keepEmpty : bool) : list jsstring :=
  pathSplit_loop keepEmpty path [] [].

(** ** isAbsolute *)

Definition isAbsolute (h : Host) (path : jsstring) : bool :=
  JS.firstIs path slash || JS.startsWith path (origin h).

(** ** normalize *)

Definition sDot : jsstring := [dot].
Definition sDotDot : jsstring := [dot; dot].
Definition sSlash : jsstring := [slash].

(** One turn of the [for (const item of arr)] loop: the [switch]. *)
Definition normalize_step (pathArr : list jsstring) (item : jsstring)
    : list jsstring :=
  if JS.streq item sDot then pathArr
  else if JS.streq item sDotDot then
    match JS.lastOpt pathArr with
    | Some l =>
        if JS.streq l sDotDot then pathArr ++ [sDotDot]
        else if JS.streq l sDot then removelast pathArr ++ [sDotDot]
        else removelast pathArr
    | None => pathArr ++ [sDotDot]
    end
  else pathArr ++ [item].

(** [while ((pathArr.length !== 0 && pathArr[0] === "..") || pathArr[0] === ".")
    pathArr.shift()]. *)
Fixpoint shiftDots (pathArr : list jsstring) : list jsstring :=
  match pathArr with
  | [] => []
  | x :: rest =>
      if JS.streq x sDotDot || JS.streq x sDot then shiftDots rest
      else pathArr
  end.

Definition normalize (h : Host) (path : jsstring) : jsstring :=
  let explicitDirectory := JS.endsWith path sSlash in
  let absoluteDirectory := isAbsolute h path in
  let arr := pathSplit path false in
  let pathArr := fold_left normalize_step arr [] in
  let pathArr := if absoluteDirectory then shiftDots pathArr else pathArr in
  if (length pathArr =? 0)%nat && absoluteDirectory then sSlash
  else
    let pathStr := JS.orElse (JS.arrayJoin pathArr sSlash) sDot in
    let pathStr := if explicitDirectory then pathStr ++ sSlash else pathStr in
    if absoluteDirectory && negb (JS.firstIs pathStr slash)
    then sSlash ++ pathStr
    else pathStr.

(** ** join, resolve, relative *)

Definition join (h : Host) (paths : list jsstring) : jsstring :=
  match paths with
  | [] => sDot
  | [p] => normalize h p
  | _ => normalize h (JS.arrayJoin paths sSlash)
  end.

(** The backward scan of [resolve]: the slice from the last absolute
    argument on, or [None] when no argument is absolute. *)
Fixpoint sliceFromLastAbsolute (h : Host) (pathSegments : list jsstring)
    : option (list jsstring) :=
  match pathSegments with
  | [] => None
  | p :: rest =>
      match sliceFromLastAbsolute h rest with
      | Some s => Some s
      | None => if isAbsolute h p then Some pathSegments else None
      end
  end.

Definition resolve (h : Host) (pathSegments : list jsstring) : jsstring :=
  let pathArr :=
    pathSplit
      match sliceFromLastAbsolute h pathSegments with
      | Some pathSegments' => join h pathSegments'
      | None => join h [pathname h; join h pathSegments]
      end
      false in
  sSlash ++ JS.arrayJoin (shiftDots pathArr) sSlash.

Definition relative (h : Host) (from to : jsstring) : jsstring :=
  join h [from; to].

(** ** dirname, basename, extname *)

(** [while (arr[arr.length - 1] === "") arr.pop()].  Every turn pops one
    entry, so the loop makes at most [arr.length] turns. *)
Fixpoint popEmpties_loop (turns : nat) (arr : list jsstring) : list jsstring :=
  match turns with
  | 0 => arr
  | S turns' =>
      match JS.lastOpt arr with
      | Some [] => popEmpties_loop turns' (removelast arr)
      | _ => arr
      end
  end.

Definition popEmpties (arr : list jsstring) : list jsstring :=
  popEmpties_loop (length arr) arr.

Definition dirname (h : Host) (path : jsstring) : jsstring :=
  let arr := pathSplit path true in
  let arr := popEmpties arr in
  let arr := if negb (length arr =? 0)%nat then removelast arr else arr in
  let pathStr := JS.arrayJoin arr sSlash in
  if isAbsolute h path then
    if JS.firstIs pathStr slash then pathStr else sSlash ++ pathStr
  else JS.orElse (JS.arrayJoin arr sSlash) sDot.

(** [pathSplit(path).pop() ?? ""]. *)
Definition lastSegment (path : jsstring) : jsstring :=
  match JS.lastOpt (pathSplit path false) with
  | Some fileName => fileName
  | None => []
  end.

(** The optional argument [ext] is [None] when it is not supplied. *)
Definition basename (path : jsstring) (ext : option jsstring) : jsstring :=
  let fullSlash := forallb (fun char => (char =? slash)%Z) path in
  if fullSlash then
    match ext with
    | None => []
    | Some e => if isEmpty e || JS.streq e path then [] else path
    end
  else
    let fileName := lastSegment path in
    match ext with
    | Some e =>
        if negb (isEmpty e) && JS.endsWith fileName e
           && (length e <? length fileName)%nat
        then JS.substringTo fileName (length fileName - length e)
        else fileName
    | None => fileName
    end.

Definition extname (path : jsstring) : jsstring :=
  let fileName := lastSegment path in
  let index := JS.lastIndexOf fileName dot in
  if (index =? -1)%Z || (index =? 0)%Z
     || (index =? Z.of_nat (length fileName) - 1)%Z
  then []
  else JS.substringFrom fileName index.

(** ** parse and format *)

Definition parse (h : Host) (path : jsstring) : ParsedPath :=
  let root := if JS.startsWith path sSlash then sSlash else [] in
  let dir := dirname h path in
  let base := basename path None in
  let ext := extname path in
  let name := basename path (Some ext) in
  mkParsedPath root dir base ext name.

(** A record read back as an input of [format]: every field is present. *)
Definition asInput (p : ParsedPath) : FormatInputPathObject :=
  mkFormatInput (Some (root p)) (Some (dir p)) (Some (base p))
                (Some (ext p)) (Some (name p)).

(** [a ?? b]. *)
Definition nullish {A} (a b : option A) : option A :=
  match a with Some _ => a | None => b end.

Definition orEmpty (a : option jsstring) : jsstring :=
  match a with Some s => s | None => [] end.

Definition formatPrefixes : list jsstring :=
  [[dot; slash]; [dot; dot; slash]; [slash]; [dot]].

(** The [for (const prefix of ...)] loop of [format]. *)
Fixpoint format_loop (dir joined : jsstring) (prefixes : list jsstring)
    : jsstring :=
  match prefixes with
  | [] => joined
  | prefix :: rest =>
      if JS.startsWith dir prefix && negb (JS.startsWith joined prefix)
      then prefix ++ joined
      else format_loop dir joined rest
  end.

(** [path.dir ?? path.root] and
    [path.base ?? (path.name ?? "") + (path.ext ?? "")]. *)
Definition format_dir (path : FormatInputPathObject) : option jsstring :=
  nullish (f_dir path) (f_root path).
Definition format_base (path : FormatInputPathObject) : jsstring :=
  match f_base path with
  | Some b => b
  | None => orEmpty (f_name path) ++ orEmpty (f_ext path)
  end.

(** [dir.endsWith("/") ? dir + base : dir + "/" + base]. *)
Definition format_joined (dir base : jsstring) : jsstring :=
  if JS.endsWith dir sSlash then dir ++ base else dir ++ sSlash ++ base.

Definition format (path : FormatInputPathObject) : jsstring :=
  let dir := format_dir path in
  let base := format_base path in
  match dir with
  | Some ((_ :: _) as dir) =>
      let joined := format_joined dir base in
      format_loop dir joined formatPrefixes
  | _ => base
  end.

(** ** escape

    [escape] is the host's [encodeURI].  [encodeURI] and
    [encodeURIComponent] are the operation Encode of ECMA-262 (19.2.6) with
    two sets of characters left as they are; Encode throws a URIError on an
    unpaired surrogate, which is the result [None] here. *)

Module URI.

Definition inString (c : codeUnit) (set : jsstring) : bool :=
  existsb (Z.eqb c) set.

Definition uriAlpha : jsstring :=
  str "abcdefghijklmnopqrstuvwxyzABCDEFGHIJKLMNOPQRSTUVWXYZ".
Definition decimalDigit : jsstring := str "0123456789".
Definition uriMark : jsstring := str "-_.!~*'()".
Definition uriReserved : jsstring := str ";/?:@&=+$,".

Definition alwaysUnescaped : jsstring := uriAlpha ++ decimalDigit ++ uriMark.

Definition isLeadingSurrogate (c : codeUnit) : bool :=
  (55296 <=? c)%Z && (c <=? 56319)%Z.
Definition isTrailingSurrogate (c : codeUnit) : bool :=
  (56320 <=? c)%Z && (c <=? 57343)%Z.

Definition UTF16SurrogatePairToCodePoint (lead trail : codeUnit) : Z :=
  ((lead - 55296) * 1024 + (trail - 56320) + 65536)%Z.

(** The octets of the UTF-8 encoding of a code point. *)
Definition utf8 (cp : Z) : list Z :=
  let cont (x : Z) := Z.lor 128 (Z.land x 63) in
  if (cp <? 128)%Z then [cp]
  else if (cp <? 2048)%Z then [Z.lor 192 (Z.shiftr cp 6); cont cp]
  else if (cp <? 65536)%Z then
    [Z.lor 224 (Z.shiftr cp 12); cont (Z.shiftr cp 6); cont cp]
  else
    [Z.lor 240 (Z.shiftr cp 18); cont (Z.shiftr cp 12);
     cont (Z.shiftr cp 6); cont cp].

(** An upper-case hexadecimal digit. *)
Definition hexDigit (n : Z) : codeUnit :=
  let d := Z.land n 15 in
  if (d <? 10)%Z then (48 + d)%Z else (55 + d)%Z.

(** ["%" + hex], with [hex] padded to two digits. *)
Definition percentOctet (octet : Z) : jsstring :=
  [percent; hexDigit (Z.shiftr octet 4); hexDigit octet].

Definition percentEncode (octets : list Z) : jsstring :=
  flat_map percentOctet octets.

Fixpoint Encode (s : jsstring) (extraUnescaped : jsstring)
    : option jsstring :=
  match s with
  | [] => Some []
  | C :: rest =>
      if inString C (alwaysUnescaped ++ extraUnescaped) then
        option_map (cons C) (Encode rest extraUnescaped)
      else if isTrailingSurrogate C then None
      else if isLeadingSurrogate C then
        match rest with
        | [] => None
        | second :: rest' =>
            if isTrailingSurrogate second then
              option_map
                (app (percentEncode
                        (utf8 (UTF16SurrogatePairToCodePoint C second))))
                (Encode rest' extraUnescaped)
            else None
        end
      else
        option_map (app (percentEncode (utf8 C)))
                   (Encode rest extraUnescaped)
  end.

Definition encodeURI (uri : jsstring) : option jsstring :=
  Encode uri (uriReserved ++ str "#").

Definition encodeURIComponent (uriComponent : jsstring) : option jsstring :=
  Encode uriComponent [].

End URI.

Definition escape (path : jsstring) : option jsstring := URI.encodeURI path.

(** ** The class Path *)

Module Path.

Record t := new { _value : jsstring }.

Definition copy (p : t) : t := new (_value p).
Definition valueOf (p : t) : jsstring := _value p.
Definition toString (p : t) : jsstring := _value p.
Definition toJSON (p : t) : jsstring := _value p.
Definition toPrimitive (p : t) : jsstring := _value p.
Definition toStringTag (p : t) : jsstring := _value p.
Definition toNamespacedPath (p : t) : jsstring := _value p.

(** The segments [Symbol.iterator] yields, in order. *)
Definition iterator (p : t) : list jsstring := pathSplit (_value p) false.

Definition normalize (h : Host) (p : t) : t := new (normalize h (_value p)).
Definition join (h : Host) (p : t) (other : list t) : t :=
  new (join h (_value p :: map _value other)).
Definition resolve (h : Host) (p : t) (other : list t) : t :=
  new (resolve h (_value p :: map _value other)).
Definition isAbsolute (h : Host) (p : t) : bool := isAbsolute h (_value p).
Definition relative (h : Host) (p to : t) : t :=
  new (relative h (_value p) (_value to)).
Definition dirname (h : Host) (p : t) : t := new (dirname h (_value p)).
Definition basename (p : t) (ext : option jsstring) : jsstring :=
  basename (_value p) ext.
Definition extname (p : t) : jsstring := extname (_value p).
Definition sep : jsstring := sSlash.
Definition delimiter : jsstring := str ":".
Definition parse (h : Host) (p : t) : ParsedPath := parse h (_value p).
Definition fromParsedPath (path : FormatInputPathObject) : t :=
  new (format path).
Definition escape (p : t) : option t := option_map new (escape (_value p)).

End Path.

(** ** Notions the statements use *)

(** The string contains a backslash. *)
Definition hasBackslash (s : jsstring) : bool := existsb (Z.eqb backslash) s.

(** The string contains a slash. *)
Definition hasSlash (s : jsstring) : bool := existsb (Z.eqb slash) s.

(** Two separators stand side by side somewhere in the string. *)
Fixpoint redundantSeparators (s : jsstring) : bool :=
  match s with
  | [] => false
  | c :: rest =>
      (isSeparator c && match rest with
                        | [] => false
                        | c' :: _ => isSeparator c'
                        end)
      || redundantSeparators rest
  end.

(** The string is made of separators only (or is empty). *)
Definition allSeparators (s : jsstring) : bool := forallb isSeparator s.

(** A segment: a non-empty string without separator. *)
Definition sepFree (s : jsstring) : Prop := Forall (fun c => isSeparator c = false) s.
Definition segment (s : jsstring) : Prop := s <> [] /\ sepFree s.

(** The fields of a path: what stands before its first separator, and the
    list of what follows each separator up to the next one. *)
Fixpoint fields (p : jsstring) : jsstring * list jsstring :=
  match p with
  | [] => ([], [])
  | c :: rest =>
      let (f, fs) := fields rest in
      if isSeparator c then ([], f :: fs) else (c :: f, fs)
  end.

(** What [pathSplit] keeps of the fields [f :: fs]: an empty last field is
    never kept, another empty field only when [keepEmpty] is set. *)
Fixpoint kept (keepEmpty : bool) (f : jsstring) (fs : list jsstring)
    : list jsstring :=
  match fs with
  | [] => if isEmpty f then [] else [f]
  | g :: gs =>
      (if negb (isEmpty f) || keepEmpty then [f] else [])
      ++ kept keepEmpty g gs
  end.

(** A folded segment list: some [..] and then names, a name being a segment
    other than [.] and [..]. *)
Definition isName (s : jsstring) : Prop :=
  segment s /\ s <> sDot /\ s <> sDotDot.
Definition folded (l : list jsstring) : Prop :=
  exists k names, l = repeat sDotDot k ++ names /\ Forall isName names.

(** A path with every [\] written as [/]. *)
Definition toSlash (c : codeUnit) : codeUnit :=
  if (c =? backslash)%Z then slash else c.

(** No surrogate of the string is unpaired ([String.prototype.isWellFormed]). *)
Fixpoint isWellFormed (s : jsstring) : bool :=
  match s with
  | [] => true
  | c :: rest =>
      if URI.isTrailingSurrogate c then false
      else if URI.isLeadingSurrogate c then
        match rest with
        | [] => false
        | second :: rest' => URI.isTrailingSurrogate second && isWellFormed rest'
        end
      else isWellFormed rest
  end.

(** The characters [encodeURI] leaves as they are. *)
Definition encodeURIUnescaped : jsstring :=
  URI.alwaysUnescaped ++ URI.uriReserved ++ str "#".

(** A segment that is neither [.] nor [..]. *)
Definition plain (s : jsstring) : Prop := s <> sDot /\ s <> sDotDot.

(** What [normalize] does after its fold, as a function of the two flags
    and of the folded array. *)
Definition assemble (absoluteDirectory explicitDirectory : bool)
    (pathArr : list jsstring) : jsstring :=
  let pathArr := if absoluteDirectory then shiftDots pathArr else pathArr in
  if (length pathArr =? 0)%nat && absoluteDirectory then sSlash
  else
    let pathStr := JS.orElse (JS.arrayJoin pathArr sSlash) sDot in
    let pathStr := if explicitDirectory then pathStr ++ sSlash else pathStr in
    if absoluteDirectory && negb (JS.firstIs pathStr slash)
    then sSlash ++ pathStr
    else pathStr.

(** ** The examples of the description, run on the embedding *)

Definition web : Host := mkHost (str "https://example.com") (str "/docs/").

(** A page loaded from a file: the browser reports the origin [null]. *)
Definition fileHost : Host := mkHost (str "null") (str "/C:/site/index.html").

(** A string literal is read as it is written: a backslash is one code
    unit and escapes nothing. *)
Example str_backslash : str "a\b" = [97; 92; 98]%Z.
Proof. reflexivity. Qed.

(** The same site, read from another page. *)
Definition webElsewhere : Host := mkHost (str "https://example.com") (str "/elsewhere").

Example normalize_examples :
  normalize web (str "") = str "." /\
  normalize web (str "a/./b/../c") = str "a/c" /\
  normalize web (str "../../a") = str "../../a" /\
  normalize web (str "/../a") = str "/a" /\
  normalize web (str "a//b/../c/./") = str "a/c/".
Proof. repeat split; reflexivity. Qed.

Example decomposer_examples :
  join web [str "a"; str "b"; str ".."; str "c"] = str "a/c" /\
  dirname web (str "/a/b/c.txt") = str "/a/b" /\
  basename (str "/a/b/c.txt") (Some (str ".txt")) = str "c" /\
  extname (str ".gitignore") = str "" /\
  extname (str "a.") = str "" /\
  extname (str "a.b.c") = str ".c" /\
  parse web (str "/a/b/c.txt") =
    mkParsedPath (str "/") (str "/a/b") (str "c.txt") (str ".txt") (str "c") /\
  format (mkFormatInput None (Some (str "/a/b")) None (Some (str ".txt"))
                        (Some (str "c"))) = str "/a/b/c.txt".
Proof. repeat split; reflexivity. Qed.

Example escape_examples :
  escape (str "/a b/c:d\e") = Some (str "/a%20b/c:d%5Ce") /\
  URI.encodeURIComponent (str "/a b/c:d") = Some (str "%2Fa%20b%2Fc%3Ad") /\
  escape [233%Z] = Some (str "%C3%A9") /\
  escape [55357%Z; 56832%Z] = Some (str "%F0%9F%98%80") /\
  escape [55357%Z] = None.
Proof. repeat split; reflexivity. Qed.

(** * Properties *)

(** ** Facts on the string built-ins *)

Lemma streq_spec (a b : jsstring) : reflect (a = b) (JS.streq a b).
Proof.
  revert b; induction a as [|x a IH]; intros [|y b]; simpl;
    try (constructor; congruence).
  destruct (Z.eqb_spec x y) as [->|Hxy]; simpl.
  - destruct (IH b) as [->|Hab]; constructor; congruence.
  - constructor; congruence.
Qed.

Lemma streq_refl (a : jsstring) : JS.streq a a = true.
Proof. destruct (streq_spec a a); congruence. Qed.

Lemma startsWith_app (p r : jsstring) : JS.startsWith (p ++ r) p = true.
Proof. induction p as [|x p IH]; simpl; [reflexivity|]. now rewrite Z.eqb_refl. Qed.

Lemma startsWith_inv (s p : jsstring) :
  JS.startsWith s p = true -> exists r, s = p ++ r.
Proof.
  revert s; induction p as [|y p IH]; intros s H; simpl in *.
  - now exists s.
  - destruct s as [|x s]; [discriminate|].
    apply andb_true_iff in H as [Hxy H].
    apply Z.eqb_eq in Hxy as ->.
    destruct (IH _ H) as [r ->]. now exists r.
Qed.

Lemma startsWith_trans (s p q : jsstring) :
  JS.startsWith s p = true -> JS.startsWith p q = true ->
  JS.startsWith s q = true.
Proof.
  intros H1 H2.
  apply startsWith_inv in H1 as [r ->].
  apply startsWith_inv in H2 as [r' ->].
  rewrite <- app_assoc. apply startsWith_app.
Qed.

Lemma lastOpt_snoc {A} (l : list A) (x : A) : JS.lastOpt (l ++ [x]) = Some x.
Proof.
  induction l as [|y l IH]; [reflexivity|].
  simpl. destruct (l ++ [x]) eqn:E; [now destruct l|exact IH].
Qed.

Lemma lastOpt_app {A} (l m : list A) :
  m <> [] -> JS.lastOpt (l ++ m) = JS.lastOpt m.
Proof.
  intros Hm. induction l as [|y l IH]; [reflexivity|].
  simpl. destruct (l ++ m) eqn:E; [|exact IH].
  apply app_eq_nil in E as [_ ->]. congruence.
Qed.

Lemma lastOpt_None {A} (l : list A) : JS.lastOpt l = None -> l = [].
Proof.
  induction l as [|x l IH]; [reflexivity|].
  simpl. destruct l; [discriminate|]. intros H. now apply IH in H.
Qed.

Lemma lastOpt_Some {A} (l : list A) (x : A) :
  JS.lastOpt l = Some x -> l = removelast l ++ [x].
Proof.
  induction l as [|y l IH]; [discriminate|].
  destruct l as [|z l]; [now intros [= ->]|].
  intros H. change (y :: z :: l = y :: (removelast (z :: l) ++ [x])).
  f_equal. now apply IH.
Qed.

Lemma lastOpt_In {A} (l : list A) (x : A) : JS.lastOpt l = Some x -> In x l.
Proof.
  intros H. rewrite (lastOpt_Some _ _ H). apply in_or_app. right. now left.
Qed.

(** [s.endsWith("/")] looks at the last code unit. *)
Lemma endsWith_slash (s : jsstring) :
  JS.endsWith s sSlash = match JS.lastOpt s with
                         | Some c => (c =? slash)%Z
                         | None => false
                         end.
Proof.
  destruct (JS.lastOpt s) as [c|] eqn:E.
  - rewrite (lastOpt_Some _ _ E). unfold JS.endsWith.
    rewrite length_app. simpl length.
    replace (length (removelast s) + 1 - 1) with (length (removelast s) + 0) by lia.
    rewrite skipn_app, Nat.add_0_r, skipn_all.
    replace (length (removelast s) - length (removelast s)) with 0 by lia.
    simpl. rewrite andb_true_r.
    destruct (length (removelast s) + 1) eqn:L; [lia|reflexivity].
  - apply lastOpt_None in E as ->. reflexivity.
Qed.

Lemma endsWith_slash_snoc (s : jsstring) (c : codeUnit) :
  JS.endsWith (s ++ [c]) sSlash = (c =? slash)%Z.
Proof. now rewrite endsWith_slash, lastOpt_snoc. Qed.

Lemma endsWith_slash_cons (c : codeUnit) (t : jsstring) :
  t <> [] -> JS.endsWith (c :: t) sSlash = JS.endsWith t sSlash.
Proof.
  intros Ht. rewrite !endsWith_slash.
  change (c :: t) with ([c] ++ t). now rewrite lastOpt_app.
Qed.

Lemma endsWith_slash_app (s t : jsstring) :
  t <> [] -> JS.endsWith (s ++ t) sSlash = JS.endsWith t sSlash.
Proof. intros Ht. now rewrite !endsWith_slash, lastOpt_app. Qed.

(** ** pathSplit and the fields of a path *)

Lemma isEmpty_length (s : jsstring) : (length s =? 0)%nat = isEmpty s.
Proof. now destruct s. Qed.

Lemma pathSplit_loop_kept (p : jsstring) (keepEmpty : bool) :
  forall arr current,
    pathSplit_loop keepEmpty p arr current
    = arr ++ kept keepEmpty (current ++ fst (fields p)) (snd (fields p)).
Proof.
  induction p as [|c p IH]; intros arr current; simpl.
  - rewrite app_nil_r, isEmpty_length.
    destruct (isEmpty current); simpl; [now rewrite app_nil_r|reflexivity].
  - destruct (fields p) as [f fs] eqn:E. simpl in IH.
    destruct (isSeparator c); simpl.
    + rewrite app_nil_r.
      destruct (negb (isEmpty current) || keepEmpty) eqn:K.
      * rewrite IH. simpl. now rewrite <- app_assoc.
      * rewrite IH.
        destruct current; [reflexivity|]. simpl in K. discriminate.
    + rewrite IH. now rewrite <- app_assoc.
Qed.

Lemma pathSplit_kept (p : jsstring) (keepEmpty : bool) :
  pathSplit p keepEmpty = kept keepEmpty (fst (fields p)) (snd (fields p)).
Proof. unfold pathSplit. now rewrite pathSplit_loop_kept. Qed.

Lemma fields_sepFree (p : jsstring) :
  sepFree (fst (fields p)) /\ Forall sepFree (snd (fields p)).
Proof.
  induction p as [|c p [IHf IHfs]]; simpl.
  - split; constructor.
  - destruct (fields p) as [f fs]. simpl in *.
    destruct (isSeparator c) eqn:S; simpl; split; auto.
    + constructor.
    + now constructor.
Qed.

Lemma kept_In (keepEmpty : bool) (fs : list jsstring) :
  forall f s, In s (kept keepEmpty f fs) ->
    In s (f :: fs) /\ (keepEmpty = false -> s <> []).
Proof.
  induction fs as [|g gs IH]; intros f s; simpl.
  - destruct f; simpl; [tauto|].
    intros [<-|[]]. split; [now left|discriminate].
  - intros H. apply in_app_or in H as [H|H].
    + destruct f; simpl in H.
      * destruct keepEmpty; simpl in H; [|tauto].
        destruct H as [<-|[]]. split; [now left|discriminate].
      * destruct H as [<-|[]]. split; [now left|discriminate].
    + apply IH in H as [H1 H2]. split; [now right|exact H2].
Qed.

Lemma pathSplit_sepFree (p : jsstring) (keepEmpty : bool) :
  Forall sepFree (pathSplit p keepEmpty).
Proof.
  rewrite pathSplit_kept. apply Forall_forall. intros s H.
  apply kept_In in H as [H _].
  destruct (fields_sepFree p) as [Hf Hfs].
  destruct H as [<-|H]; [exact Hf|].
  now apply (proj1 (Forall_forall _ _) Hfs).
Qed.

Lemma pathSplit_segments (p : jsstring) : Forall segment (pathSplit p false).
Proof.
  apply Forall_forall. intros s H. split.
  - rewrite pathSplit_kept in H. apply kept_In in H as [_ H]. now apply H.
  - now apply (proj1 (Forall_forall _ _) (pathSplit_sepFree p false)).
Qed.

Lemma fields_of_sepFree (s : jsstring) : sepFree s -> fields s = (s, []).
Proof.
  induction 1 as [|c s Hc _ IH]; [reflexivity|].
  simpl. now rewrite IH, Hc.
Qed.

Lemma fields_app_sep (a b : jsstring) (c : codeUnit) :
  isSeparator c = true ->
  fields (a ++ c :: b)
  = (fst (fields a), snd (fields a) ++ fst (fields b) :: snd (fields b)).
Proof.
  intros Hc. induction a as [|x a IH]; simpl.
  - rewrite Hc. now destruct (fields b).
  - rewrite IH. destruct (fields a) as [f fs]. simpl.
    now destruct (isSeparator x).
Qed.

Lemma isSeparator_slash : isSeparator slash = true.
Proof. reflexivity. Qed.

Lemma fields_join (s : jsstring) (segs : list jsstring) :
  Forall sepFree (s :: segs) ->
  fields (JS.arrayJoin (s :: segs) sSlash) = (s, segs).
Proof.
  revert s; induction segs as [|g gs IH]; intros s H.
  - apply fields_of_sepFree. now inversion H.
  - inversion H as [|? ? Hs Hrest]; subst.
    change (JS.arrayJoin (s :: g :: gs) sSlash)
      with (s ++ slash :: JS.arrayJoin (g :: gs) sSlash).
    rewrite (fields_app_sep _ _ _ isSeparator_slash).
    rewrite (IH _ Hrest), (fields_of_sepFree _ Hs). reflexivity.
Qed.

Lemma kept_segments (segs : list jsstring) :
  forall s, Forall segment (s :: segs) -> kept false s segs = s :: segs.
Proof.
  induction segs as [|g gs IH]; intros s H;
    inversion H as [|? ? [Hs _] Hrest]; subst; simpl.
  - destruct s; [congruence|reflexivity].
  - rewrite (IH _ Hrest). destruct s; [congruence|reflexivity].
Qed.

Lemma segments_sepFree (segs : list jsstring) :
  Forall segment segs -> Forall sepFree segs.
Proof. intros H. eapply Forall_impl; [|exact H]. now intros s [_ Hs]. Qed.

(** Splitting what [join("/")] made of segments gives the segments back. *)
Lemma pathSplit_join (segs : list jsstring) :
  Forall segment segs -> pathSplit (JS.arrayJoin segs sSlash) false = segs.
Proof.
  intros H. destruct segs as [|s segs]; [reflexivity|].
  rewrite pathSplit_kept, (fields_join _ _ (segments_sepFree _ H)).
  now apply kept_segments.
Qed.

Lemma pathSplit_leading_slash (p : jsstring) :
  pathSplit (slash :: p) false = pathSplit p false.
Proof. reflexivity. Qed.

Lemma kept_last_empty (fs : list jsstring) :
  forall f, kept false f (fs ++ [[]]) = kept false f fs.
Proof.
  induction fs as [|g gs IH]; intros f; simpl.
  - now destruct f.
  - now rewrite IH.
Qed.

Lemma pathSplit_trailing_slash (p : jsstring) :
  pathSplit (p ++ [slash]) false = pathSplit p false.
Proof.
  rewrite !pathSplit_kept, (fields_app_sep _ _ _ isSeparator_slash).
  simpl. apply kept_last_empty.
Qed.

(** ** The fold of normalize *)

Lemma segment_dotdot : segment sDotDot.
Proof. split; [discriminate|]. repeat constructor. Qed.

Lemma folded_nil : folded [].
Proof. exists 0, []. split; [reflexivity|constructor]. Qed.

Lemma folded_names (names : list jsstring) : Forall isName names -> folded names.
Proof. intros H. now exists 0, names. Qed.

Lemma folded_segments (l : list jsstring) : folded l -> Forall segment l.
Proof.
  intros (k & names & -> & Hn). apply Forall_app. split.
  - apply Forall_forall. intros s Hs. apply repeat_spec in Hs as ->.
    exact segment_dotdot.
  - eapply Forall_impl; [|exact Hn]. now intros s [Hs _].
Qed.

Lemma lastOpt_repeat {A} (a : A) (k : nat) :
  JS.lastOpt (repeat a (S k)) = Some a.
Proof.
  replace (repeat a (S k)) with (repeat a k ++ [a]).
  - apply lastOpt_snoc.
  - simpl. symmetry. apply repeat_cons.
Qed.

Lemma normalize_step_folded (acc : list jsstring) (item : jsstring) :
  folded acc -> segment item -> folded (normalize_step acc item).
Proof.
  intros (k & names & -> & Hn) Hitem. unfold normalize_step.
  destruct (streq_spec item sDot) as [->|Hdot].
  { now exists k, names. }
  destruct (streq_spec item sDotDot) as [->|Hdd].
  - destruct names as [|n0 names0] using rev_ind.
    + rewrite app_nil_r. destruct k as [|k].
      * simpl. exists 1, []. split; [reflexivity|constructor].
      * rewrite lastOpt_repeat, streq_refl.
        exists (S (S k)), []. split; [|constructor].
        rewrite app_nil_r. change [sDotDot] with (repeat sDotDot 1).
        rewrite <- repeat_app. f_equal. lia.
    + clear IHnames0. apply Forall_app in Hn as [Hn0 Hn1].
      inversion Hn1 as [|? ? (_ & Hnd & Hndd) _]; subst.
      rewrite app_assoc, lastOpt_snoc.
      destruct (streq_spec n0 sDotDot) as [|_]; [contradiction|].
      destruct (streq_spec n0 sDot) as [|_]; [contradiction|].
      rewrite removelast_last. now exists k, names0.
  - exists k, (names ++ [item]). split; [now rewrite app_assoc|].
    apply Forall_app. split; [exact Hn|].
    apply Forall_cons; [|apply Forall_nil]. now split.
Qed.

Lemma fold_normalize_folded (arr : list jsstring) :
  forall acc, folded acc -> Forall segment arr ->
    folded (fold_left normalize_step arr acc).
Proof.
  induction arr as [|item arr IH]; intros acc Hacc Harr; simpl; [exact Hacc|].
  inversion Harr; subst. apply IH; [|assumption].
  now apply normalize_step_folded.
Qed.

(** The fold leaves a folded list as it is. *)
Lemma fold_normalize_id (l : list jsstring) :
  forall acc, folded (acc ++ l) -> fold_left normalize_step l acc = acc ++ l.
Proof.
  induction l as [|item l IH]; intros acc H; simpl; [now rewrite app_nil_r|].
  assert (Hstep : normalize_step acc item = acc ++ [item]).
  { destruct H as (k & names & E & Hn). unfold normalize_step.
    assert (Hin : In item (repeat sDotDot k ++ names)).
    { rewrite <- E. apply in_or_app. right. now left. }
    destruct (streq_spec item sDot) as [->|Hdot].
    { exfalso. apply in_app_or in Hin as [Hin|Hin].
      - apply repeat_spec in Hin. discriminate.
      - apply (proj1 (Forall_forall _ _) Hn) in Hin as (_ & Hin & _).
        now apply Hin. }
    destruct (streq_spec item sDotDot) as [->|Hdd]; [|reflexivity].
    (* every name stands after the last [..]: acc holds [..] only *)
    assert (Hacc : exists j, acc = repeat sDotDot j).
    { clear IH Hdot Hin. revert acc E.
      induction k as [|k IHk]; intros acc E; simpl in E.
      - exfalso. subst names.
        apply Forall_app in Hn as [_ Hn].
        inversion Hn as [|? ? (_ & _ & Hndd) _]. now apply Hndd.
      - destruct acc as [|a acc]; [now exists 0|].
        simpl in E. injection E as -> E.
        destruct (IHk _ E) as [j ->]. now exists (S j). }
    destruct Hacc as [[|j] ->]; [reflexivity|].
    now rewrite lastOpt_repeat, streq_refl. }
  rewrite Hstep, IH; rewrite <- app_assoc; [reflexivity|exact H].
Qed.

Lemma shiftDots_names (names : list jsstring) :
  Forall isName names -> shiftDots names = names.
Proof.
  intros H. destruct names as [|n names]; [reflexivity|].
  inversion H as [|? ? (_ & Hd & Hdd) _]; subst. simpl.
  destruct (streq_spec n sDotDot); [contradiction|].
  destruct (streq_spec n sDot); [contradiction|reflexivity].
Qed.

Lemma shiftDots_folded (k : nat) (names : list jsstring) :
  Forall isName names -> shiftDots (repeat sDotDot k ++ names) = names.
Proof.
  intros H. induction k as [|k IH]; [now apply shiftDots_names|exact IH].
Qed.

(** [shiftDots] leaves a list whose first entry is neither [.] nor [..]. *)
Lemma shiftDots_head (l : list jsstring) :
  hd_error (shiftDots l) <> Some sDot /\ hd_error (shiftDots l) <> Some sDotDot.
Proof.
  induction l as [|x l IH]; simpl; [split; discriminate|].
  destruct (streq_spec x sDotDot) as [|Hdd]; [exact IH|].
  destruct (streq_spec x sDot) as [|Hd]; [exact IH|].
  simpl. split; congruence.
Qed.

Lemma shiftDots_Forall (P : jsstring -> Prop) (l : list jsstring) :
  Forall P l -> Forall P (shiftDots l).
Proof.
  induction 1 as [|x l Hx Hl IH]; simpl; [constructor|].
  destruct (JS.streq x sDotDot || JS.streq x sDot); [exact IH|now constructor].
Qed.

(** ** The string normalize assembles *)

Lemma normalize_assemble (h : Host) (p : jsstring) :
  normalize h p
  = assemble (isAbsolute h p) (JS.endsWith p sSlash)
             (fold_left normalize_step (pathSplit p false) []).
Proof. reflexivity. Qed.

Lemma normalize_folded (p : jsstring) :
  folded (fold_left normalize_step (pathSplit p false) []).
Proof. apply fold_normalize_folded; [apply folded_nil|apply pathSplit_segments]. Qed.

Lemma not_separator_slash (c : codeUnit) :
  isSeparator c = false -> (c =? slash)%Z = false.
Proof. unfold isSeparator. now intros H%orb_false_iff. Qed.

Lemma arrayJoin_cons (x : jsstring) (l : list jsstring) (sep : jsstring) :
  l <> [] -> JS.arrayJoin (x :: l) sep = x ++ sep ++ JS.arrayJoin l sep.
Proof. destruct l; [congruence|reflexivity]. Qed.

Lemma arrayJoin_head (s : jsstring) (l : list jsstring) :
  segment s ->
  exists c r, JS.arrayJoin (s :: l) sSlash = c :: r /\ isSeparator c = false.
Proof.
  intros [Hne Hs]. destruct s as [|c s]; [congruence|].
  inversion Hs; subst.
  destruct l; simpl; eauto.
Qed.

Lemma arrayJoin_last (l : list jsstring) :
  forall s, Forall segment (s :: l) ->
    JS.endsWith (JS.arrayJoin (s :: l) sSlash) sSlash = false.
Proof.
  induction l as [|g gs IH]; intros s H; inversion H as [|? ? Hs Hrest]; subst.
  - simpl. rewrite endsWith_slash.
    destruct (JS.lastOpt s) as [c|] eqn:E; [|reflexivity].
    apply lastOpt_In in E. destruct Hs as [_ Hs].
    apply not_separator_slash.
    now apply (proj1 (Forall_forall _ _) Hs).
  - rewrite arrayJoin_cons by discriminate.
    assert (Hg : segment g) by now inversion Hrest.
    destruct (arrayJoin_head g gs Hg) as (c & r & E & _).
    rewrite !endsWith_slash_app; [now apply IH| |]; rewrite E; discriminate.
Qed.

Lemma orElse_arrayJoin (s : jsstring) (l : list jsstring) :
  segment s ->
  JS.orElse (JS.arrayJoin (s :: l) sSlash) sDot = JS.arrayJoin (s :: l) sSlash.
Proof. intros Hs. now destruct (arrayJoin_head s l Hs) as (c & r & -> & _). Qed.

Section Assemble.

Variable e : bool.
Variable l : list jsstring.
Hypothesis Hl : folded l.

Lemma assemble_absolute :
  exists names, Forall isName names /\ shiftDots l = names /\
    assemble true e l
    = slash :: match names with
               | [] => []
               | _ :: _ => JS.arrayJoin names sSlash ++ if e then sSlash else []
               end.
Proof.
  destruct Hl as (k & names & -> & Hn).
  exists names. split; [exact Hn|]. split; [now apply shiftDots_folded|].
  unfold assemble. rewrite (shiftDots_folded _ _ Hn).
  destruct names as [|n names]; [reflexivity|].
  assert (Hs : segment n) by (inversion Hn as [|? ? [Hs _] _]; exact Hs).
  destruct (arrayJoin_head n names Hs) as (c & r & E & Hc).
  apply not_separator_slash in Hc.
  rewrite E. destruct e; simpl; rewrite Hc; simpl; now rewrite ?app_nil_r.
Qed.

Lemma assemble_absolute_first : JS.firstIs (assemble true e l) slash = true.
Proof. destruct assemble_absolute as (names & _ & _ & ->). reflexivity. Qed.

Lemma pathSplit_assemble_absolute :
  pathSplit (assemble true e l) false = shiftDots l.
Proof.
  destruct assemble_absolute as (names & Hn & -> & ->).
  rewrite pathSplit_leading_slash.
  destruct names as [|n names]; [reflexivity|].
  assert (Hseg : Forall segment (n :: names))
    by (apply folded_segments; now apply folded_names).
  destruct e.
  - rewrite pathSplit_trailing_slash. now apply pathSplit_join.
  - rewrite app_nil_r. now apply pathSplit_join.
Qed.

Lemma assemble_relative :
  assemble false e l
  = JS.orElse (JS.arrayJoin l sSlash) sDot ++ if e then sSlash else [].
Proof.
  unfold assemble. rewrite andb_false_r. simpl.
  destruct e; [reflexivity|now rewrite app_nil_r].
Qed.

Lemma assemble_relative_first : JS.firstIs (assemble false e l) slash = false.
Proof.
  rewrite assemble_relative.
  destruct l as [|s l']; [reflexivity|].
  assert (Hs : segment s)
    by (apply folded_segments in Hl; now inversion Hl).
  destruct (arrayJoin_head s l' Hs) as (c & r & -> & Hc).
  simpl. now apply not_separator_slash.
Qed.

Lemma fold_assemble_relative :
  fold_left normalize_step (pathSplit (assemble false e l) false) [] = l.
Proof.
  rewrite assemble_relative.
  destruct l as [|s l'] eqn:El.
  - now destruct e.
  - rewrite <- El in *.
    assert (Hne : JS.orElse (JS.arrayJoin l sSlash) sDot = JS.arrayJoin l sSlash).
    { subst l. apply folded_segments in Hl.
      apply orElse_arrayJoin. now inversion Hl. }
    rewrite Hne.
    assert (Hsplit : pathSplit (JS.arrayJoin l sSlash ++ if e then sSlash else [])
                               false = l).
    { destruct e.
      - rewrite pathSplit_trailing_slash.
        apply pathSplit_join, folded_segments, Hl.
      - rewrite app_nil_r. apply pathSplit_join, folded_segments, Hl. }
    rewrite Hsplit. now apply (fold_normalize_id l []).
Qed.

Lemma endsWith_assemble_relative :
  JS.endsWith (assemble false e l) sSlash = e.
Proof.
  rewrite assemble_relative.
  destruct e.
  - apply endsWith_slash_snoc.
  - rewrite app_nil_r. destruct l as [|s l']; [reflexivity|].
    pose proof (folded_segments _ Hl) as Hseg.
    rewrite orElse_arrayJoin by now inversion Hseg.
    now apply arrayJoin_last.
Qed.

Lemma endsWith_assemble_absolute :
  shiftDots l <> [] -> JS.endsWith (assemble true e l) sSlash = e.
Proof.
  destruct assemble_absolute as (names & Hn & -> & ->). intros Hne.
  destruct names as [|n names]; [congruence|].
  assert (Hseg : Forall segment (n :: names))
    by (apply folded_segments; now apply folded_names).
  assert (Hs : segment n) by now inversion Hseg.
  destruct (arrayJoin_head n names Hs) as (c & r & E & _).
  rewrite endsWith_slash_cons by (rewrite E; discriminate).
  destruct e.
  - apply endsWith_slash_snoc.
  - rewrite app_nil_r. now apply arrayJoin_last.
Qed.

Lemma folded_shiftDots : folded (shiftDots l).
Proof.
  destruct Hl as (k & names & -> & Hn).
  rewrite (shiftDots_folded _ _ Hn). now apply folded_names.
Qed.

End Assemble.

Lemma shiftDots_idem (l : list jsstring) : shiftDots (shiftDots l) = shiftDots l.
Proof.
  induction l as [|x l IH]; [reflexivity|]. simpl.
  destruct (JS.streq x sDotDot || JS.streq x sDot) eqn:E; [exact IH|].
  simpl. now rewrite E.
Qed.

Lemma assemble_shiftDots (e : bool) (l : list jsstring) :
  assemble true e (shiftDots l) = assemble true e l.
Proof. unfold assemble. now rewrite shiftDots_idem. Qed.

Lemma assemble_absolute_nil (e e' : bool) (l : list jsstring) :
  shiftDots l = [] -> assemble true e l = assemble true e' l.
Proof. unfold assemble. now intros ->. Qed.

(** ** normalize: first code unit, segments, second run *)

Lemma normalize_first (h : Host) (p : jsstring) :
  JS.firstIs (normalize h p) slash = isAbsolute h p.
Proof.
  rewrite normalize_assemble. destruct (isAbsolute h p).
  - apply assemble_absolute_first, normalize_folded.
  - apply assemble_relative_first, normalize_folded.
Qed.

Lemma isAbsolute_first (h : Host) (p : jsstring) :
  JS.firstIs p slash = true -> isAbsolute h p = true.
Proof. unfold isAbsolute. now intros ->. Qed.

Lemma pathSplit_normalize_absolute (h : Host) (p : jsstring) :
  isAbsolute h p = true ->
  pathSplit (normalize h p) false
  = shiftDots (fold_left normalize_step (pathSplit p false) []).
Proof.
  intros Ha. rewrite normalize_assemble, Ha.
  apply pathSplit_assemble_absolute, normalize_folded.
Qed.

Lemma normalize_idem_absolute (h : Host) (p : jsstring) :
  isAbsolute h p = true -> normalize h (normalize h p) = normalize h p.
Proof.
  intros Ha.
  rewrite (normalize_assemble h (normalize h p)).
  rewrite (pathSplit_normalize_absolute _ _ Ha).
  rewrite (isAbsolute_first h) by (now rewrite normalize_first).
  rewrite (normalize_assemble h p), Ha.
  set (l := fold_left normalize_step (pathSplit p false) []).
  assert (Hl : folded l) by apply normalize_folded.
  rewrite (fold_normalize_id (shiftDots l) []) by apply (folded_shiftDots _ Hl).
  simpl app. rewrite assemble_shiftDots.
  destruct (shiftDots l) eqn:E.
  - now apply assemble_absolute_nil.
  - rewrite endsWith_assemble_absolute; [reflexivity|exact Hl|].
    rewrite E. discriminate.
Qed.

Lemma normalize_idem_relative (h : Host) (p : jsstring) :
  isAbsolute h p = false -> isAbsolute h (normalize h p) = false ->
  normalize h (normalize h p) = normalize h p.
Proof.
  intros Ha Ha'.
  rewrite (normalize_assemble h (normalize h p)), Ha'.
  rewrite (normalize_assemble h p), Ha.
  rewrite fold_assemble_relative by apply normalize_folded.
  now rewrite endsWith_assemble_relative by apply normalize_folded.
Qed.

Lemma Forall_segment_chars (l : list jsstring) :
  Forall segment l ->
  Forall (fun s => s <> [] /\ ~ In slash s /\ ~ In backslash s) l.
Proof.
  intros H. eapply Forall_impl; [|exact H].
  intros s [Hne Hs]. split; [exact Hne|].
  split; intros Hin; apply (proj1 (Forall_forall _ _) Hs) in Hin; discriminate.
Qed.

(** ** The claims on the segmenter, normalize, join and resolve *)

(** C10. Every segment [pathSplit] produces when empty segments are dropped
    (the default, and what iterating a [Path] yields) is a non-empty string
    that contains neither [/] nor [\]. *)
Theorem pathSplit_default_segments (p : jsstring) :
  Forall (fun s => s <> [] /\ ~ In slash s /\ ~ In backslash s)
         (pathSplit p false)
  /\ Forall (fun s => s <> [] /\ ~ In slash s /\ ~ In backslash s)
            (Path.iterator (Path.new p)).
Proof. split; apply Forall_segment_chars, pathSplit_segments. Qed.

(** C7. For an absolute path [p], [normalize p] begins with [/] and its
    segment sequence has no leading [..]. *)
Theorem normalize_absolute_no_climb (h : Host) (p : jsstring) :
  isAbsolute h p = true ->
  JS.firstIs (normalize h p) slash = true
  /\ hd_error (pathSplit (normalize h p) false) <> Some sDotDot.
Proof.
  intros Ha. split.
  - now rewrite normalize_first.
  - rewrite (pathSplit_normalize_absolute _ _ Ha). apply shiftDots_head.
Qed.

Lemma normalize_absolute_no_climb_witness :
  isAbsolute web (str "/../a") = true
  /\ JS.firstIs (normalize web (str "/../a")) slash = true
  /\ hd_error (pathSplit (normalize web (str "/../a")) false) <> Some sDotDot.
Proof.
  split; [reflexivity|].
  apply (normalize_absolute_no_climb web (str "/../a")). reflexivity.
Defined.

(** C8. [join] of no argument is [.]; of one argument [p] it is
    [normalize p]; of two or more it is [normalize] of the arguments joined
    with [/], and so it begins with [/] exactly when that joined string is
    absolute. *)
Theorem join_cases (h : Host) :
  join h [] = sDot
  /\ (forall p, join h [p] = normalize h p)
  /\ (forall p q rest,
        join h (p :: q :: rest)
        = normalize h (JS.arrayJoin (p :: q :: rest) sSlash))
  /\ (forall p q rest,
        JS.firstIs (join h (p :: q :: rest)) slash
        = isAbsolute h (JS.arrayJoin (p :: q :: rest) sSlash)).
Proof.
  repeat split; intros.
  unfold join. apply normalize_first.
Qed.

(** C5. [resolve] always returns a string that begins with [/] and whose
    segment sequence starts with neither [.] nor [..], whatever the
    arguments, the current location and the origin. *)
Theorem resolve_absolute (h : Host) (pathSegments : list jsstring) :
  JS.firstIs (resolve h pathSegments) slash = true
  /\ hd_error (pathSplit (resolve h pathSegments) false) <> Some sDot
  /\ hd_error (pathSplit (resolve h pathSegments) false) <> Some sDotDot.
Proof.
  unfold resolve. split; [reflexivity|].
  set (joined := match sliceFromLastAbsolute h pathSegments with
                 | Some pathSegments' => join h pathSegments'
                 | None => join h [pathname h; join h pathSegments]
                 end).
  change (sSlash ++ ?x) with (slash :: x).
  rewrite pathSplit_leading_slash, pathSplit_join.
  - apply shiftDots_head.
  - apply shiftDots_Forall, pathSplit_segments.
Qed.

(** ** Idempotence of normalize *)

Lemma redundantSeparators_app (a b : jsstring) :
  redundantSeparators a = true -> redundantSeparators (a ++ b) = true.
Proof.
  induction a as [|c a IH]; [discriminate|].
  simpl. intros H. apply orb_true_iff in H as [H|H].
  - destruct a as [|c' a]; [now rewrite andb_false_r in H|].
    simpl. now rewrite H.
  - rewrite (IH H). apply orb_true_r.
Qed.

Lemma redundantSeparators_sepFree (s t : jsstring) :
  sepFree s -> redundantSeparators (s ++ t) = redundantSeparators t.
Proof. induction 1 as [|c s Hc _ IH]; [reflexivity|]. simpl. now rewrite Hc. Qed.

Lemma redundantSeparators_join (l : list jsstring) (e : bool) :
  forall s, Forall segment (s :: l) ->
    redundantSeparators (JS.arrayJoin (s :: l) sSlash ++ if e then sSlash else [])
    = false.
Proof.
  induction l as [|g gs IH]; intros s H; inversion H as [|? ? [_ Hs] Hrest]; subst.
  - simpl JS.arrayJoin. rewrite (redundantSeparators_sepFree _ _ Hs).
    now destruct e.
  - rewrite arrayJoin_cons by discriminate.
    rewrite <- 2 app_assoc, (redundantSeparators_sepFree _ _ Hs).
    specialize (IH _ Hrest).
    assert (Hg : segment g) by now inversion Hrest.
    destruct (arrayJoin_head g gs Hg) as (c & r & E & Hc).
    rewrite E in *. simpl in *. rewrite IH. now rewrite Hc.
Qed.

(** What [normalize] returns for a path that is not absolute has no two
    separators side by side, so it does not begin with an origin that has. *)
Lemma normalize_relative_stays_relative (h : Host) (p : jsstring) :
  redundantSeparators (origin h) = true ->
  isAbsolute h p = false -> isAbsolute h (normalize h p) = false.
Proof.
  intros Ho Ha. unfold isAbsolute at 1.
  rewrite normalize_first, Ha. simpl.
  destruct (JS.startsWith (normalize h p) (origin h)) eqn:S; [|reflexivity].
  apply startsWith_inv in S as [rest S].
  pose proof (redundantSeparators_app _ rest Ho) as R. rewrite <- S in R.
  rewrite normalize_assemble, Ha, assemble_relative in R
    by apply normalize_folded.
  pose proof (folded_segments _ (normalize_folded p)) as Hseg.
  destruct (fold_left normalize_step (pathSplit p false) []) as [|s l].
  - now destruct (JS.endsWith p sSlash).
  - rewrite orElse_arrayJoin in R by now inversion Hseg.
    now rewrite redundantSeparators_join in R.
Qed.

(** When the origin holds two separators side by side, as every origin of
    the form scheme://host does, [normalize] is idempotent. *)
Lemma normalize_idempotent_url_origin (h : Host) (p : jsstring) :
  redundantSeparators (origin h) = true ->
  normalize h (normalize h p) = normalize h p.
Proof.
  intros Ho. destruct (isAbsolute h p) eqn:Ha.
  - now apply normalize_idem_absolute.
  - apply normalize_idem_relative; [exact Ha|].
    now apply normalize_relative_stays_relative.
Qed.

Lemma normalize_idempotent_url_origin_witness :
  normalize web (normalize web (str "./https:/example.com/a/"))
  = normalize web (str "./https:/example.com/a/").
Proof.
  apply (normalize_idempotent_url_origin web (str "./https:/example.com/a/")).
  reflexivity.
Defined.

(** C6, as the code has it. [normalize (normalize p)] equals [normalize p]
    exactly when [p] is absolute or [normalize p] is not absolute; the other
    case is a path that only begins with the origin once it is normalized. *)
Theorem normalize_idempotent_iff (h : Host) (p : jsstring) :
  normalize h (normalize h p) = normalize h p
  <-> (isAbsolute h p = true \/ isAbsolute h (normalize h p) = false).
Proof.
  split.
  - intros E. destruct (isAbsolute h p) eqn:Ha; [now left|right].
    destruct (isAbsolute h (normalize h p)) eqn:Ha'; [|reflexivity].
    pose proof (normalize_first h (normalize h p)) as F.
    rewrite Ha', E, normalize_first, Ha in F. discriminate.
  - intros [Ha|Ha'].
    + now apply normalize_idem_absolute.
    + destruct (isAbsolute h p) eqn:Ha.
      * now apply normalize_idem_absolute.
      * now apply normalize_idem_relative.
Qed.

Lemma normalize_idempotent_iff_witness :
  normalize web (normalize web (str "a//b/../c/./"))
  = normalize web (str "a//b/../c/./").
Proof.
  apply (proj2 (normalize_idempotent_iff web (str "a//b/../c/./"))).
  right. reflexivity.
Defined.

(** C6 fails on a page whose origin is [null]: [./null] normalizes to
    [null], which begins with the origin and normalizes to [/null]. *)
Lemma normalize_not_idempotent :
  normalize fileHost (str "./null") = str "null"
  /\ normalize fileHost (normalize fileHost (str "./null")) = str "/null"
  /\ normalize fileHost (normalize fileHost (str "./null"))
     <> normalize fileHost (str "./null").
Proof. repeat split. discriminate. Qed.

(** ** format *)

Lemma format_loop_noop (dir rest : jsstring) (prefixes : list jsstring) :
  format_loop dir (dir ++ rest) prefixes = dir ++ rest.
Proof.
  induction prefixes as [|prefix prefixes IH]; [reflexivity|].
  simpl. destruct (JS.startsWith dir prefix) eqn:S; [|exact IH].
  rewrite (startsWith_trans _ _ _ (startsWith_app dir rest) S). exact IH.
Qed.

Lemma format_joined_app (dir base : jsstring) :
  exists rest, format_joined dir base = dir ++ rest.
Proof. unfold format_joined. destruct (JS.endsWith dir sSlash); eauto. Qed.

Lemma format_Some (path : FormatInputPathObject) (d : jsstring) :
  format_dir path = Some d -> d <> [] ->
  format path = format_joined d (format_base path).
Proof.
  intros Hd Hne. unfold format. rewrite Hd.
  destruct d as [|c d]; [congruence|].
  destruct (format_joined_app (c :: d) (format_base path)) as [rest ->].
  apply format_loop_noop.
Qed.

(** C9. When the [dir] field ([root] when [dir] is absent) is a non-empty
    string, [format] returns [dir + base] if [dir] ends with [/] and
    [dir + "/" + base] otherwise; the loop over the prefixes changes
    nothing, whatever the prefixes, the joined string beginning with [dir]. *)
Theorem format_with_dir (path : FormatInputPathObject) (d : jsstring) :
  format_dir path = Some d -> d <> [] ->
  format path
  = (if JS.endsWith d sSlash then d ++ format_base path
     else d ++ sSlash ++ format_base path)
  /\ forall prefixes,
       format_loop d (format_joined d (format_base path)) prefixes
       = format_joined d (format_base path).
Proof.
  intros Hd Hne. split.
  - now apply format_Some.
  - intros prefixes.
    destruct (format_joined_app d (format_base path)) as [rest ->].
    apply format_loop_noop.
Qed.

Lemma format_with_dir_witness :
  format (mkFormatInput (Some (str "/")) (Some (str "./lib")) None
                        (Some (str ".ts")) (Some (str "Path")))
  = str "./lib/Path.ts".
Proof.
  apply (format_with_dir
           (mkFormatInput (Some (str "/")) (Some (str "./lib")) None
                          (Some (str ".ts")) (Some (str "Path")))
           (str "./lib")).
  - reflexivity.
  - discriminate.
Defined.

(** ** basename on a path made of separators *)

Lemma pathSplit_loop_allSeparators (p : jsstring) (arr : list jsstring) :
  allSeparators p = true -> pathSplit_loop false p arr [] = arr.
Proof.
  induction p as [|c p IH]; [reflexivity|].
  simpl. intros H. apply andb_true_iff in H as [-> H]. simpl. now apply IH.
Qed.

Lemma lastSegment_allSeparators (p : jsstring) :
  allSeparators p = true -> lastSegment p = [].
Proof.
  intros H. unfold lastSegment, pathSplit.
  now rewrite pathSplit_loop_allSeparators.
Qed.

Lemma allSlashes_hasBackslash (p : jsstring) :
  allSeparators p = true ->
  forallb (fun char => (char =? slash)%Z) p = negb (hasBackslash p).
Proof.
  induction p as [|c p IH]; [reflexivity|].
  unfold allSeparators, hasBackslash in *. cbn [forallb existsb].
  intros H. apply andb_true_iff in H as [Hc H]. rewrite (IH H).
  unfold isSeparator in Hc. rewrite (Z.eqb_sym backslash c).
  destruct (Z.eqb_spec c slash) as [->|_]; [reflexivity|].
  cbn [orb] in Hc. now rewrite Hc.
Qed.

(** C3, as the code has it. On a path made of separators only (or empty),
    [basename] returns the path itself when the path holds no [\] and [ext]
    is supplied, non-empty and different from the path; it returns the empty
    string in every other case: [ext] absent, empty or equal to the path, or
    a [\] in the path.  So [basename("///")] and [basename("///", "///")]
    are both empty. *)
Theorem basename_allSeparators :
  (forall path ext,
     allSeparators path = true ->
     basename path ext
     = match ext with
       | None => []
       | Some e =>
           if isEmpty e || JS.streq e path || hasBackslash path then []
           else path
       end)
  /\ basename (str "///") None = str ""
  /\ basename (str "///") (Some (str "///")) = str "".
Proof.
  split; [|split; reflexivity].
  intros path ext H. unfold basename.
  rewrite (allSlashes_hasBackslash _ H), (lastSegment_allSeparators _ H).
  destruct (hasBackslash path); simpl.
  - destruct ext as [e|]; [|reflexivity].
    rewrite orb_true_r. destruct e; reflexivity.
  - destruct ext as [e|]; [|reflexivity]. now rewrite orb_false_r.
Qed.

Lemma basename_allSeparators_witness :
  basename (str "///") (Some (str ".txt")) = str "///".
Proof.
  apply (proj1 basename_allSeparators (str "///") (Some (str ".txt"))).
  reflexivity.
Defined.

(** C3 fails at [basename("///", "///")], which is empty, and on a path of
    backslashes, which [basename] never returns. *)
Lemma basename_allSeparators_counterexample :
  basename (str "///") (Some (str "///")) = str ""
  /\ basename (str "///") (Some (str "///")) <> str "///"
  /\ basename [backslash; backslash] (Some (str ".txt")) = str "".
Proof. repeat split. discriminate. Qed.

(** ** escape *)

Lemma inString_app (c : codeUnit) (a b : jsstring) :
  URI.inString c (a ++ b) = URI.inString c a || URI.inString c b.
Proof. apply existsb_app. Qed.

(** Encode depends on the set of unescaped characters only through the
    code units of the string it encodes. *)
Lemma Encode_ext (x y : jsstring) (n : nat) :
  forall s, length s <= n ->
    Forall (fun c => URI.inString c x = URI.inString c y) s ->
    URI.Encode s x = URI.Encode s y.
Proof.
  induction n as [|n IH]; intros s Hlen Hs.
  - destruct s; [reflexivity|simpl in Hlen; lia].
  - destruct s as [|c rest]; [reflexivity|].
    inversion Hs as [|? ? Hc Hrest]; subst.
    simpl in Hlen. cbn [URI.Encode].
    rewrite !inString_app, Hc.
    rewrite (IH rest) by (lia || assumption).
    destruct rest as [|second rest']; [reflexivity|].
    inversion Hrest; subst. simpl in Hlen.
    rewrite (IH rest') by (lia || assumption).
    reflexivity.
Qed.

Lemma Encode_unescaped (x : jsstring) (s : jsstring) :
  Forall (fun c => URI.inString c x = true) s -> URI.Encode s x = Some s.
Proof.
  induction 1 as [|c s Hc _ IH]; [reflexivity|].
  cbn [URI.Encode]. now rewrite inString_app, Hc, orb_true_r, IH.
Qed.

(** C4, as the code has it. [escape] is [encodeURI]: it keeps the reserved
    characters [; / ? : @ & = + $ , #], so a string made of them is returned
    as it is, and it agrees with the URI-component rule on every string that
    holds none of them; [Path.escape] wraps the encoded string in a new
    instance. *)
Theorem escape_is_encodeURI (p : jsstring) :
  escape p = URI.Encode p (URI.uriReserved ++ str "#")
  /\ (Forall (fun c => URI.inString c (URI.uriReserved ++ str "#") = true) p ->
      escape p = Some p)
  /\ (Forall (fun c => URI.inString c (URI.uriReserved ++ str "#") = false) p ->
      escape p = URI.encodeURIComponent p)
  /\ Path.escape (Path.new p) = option_map Path.new (escape p).
Proof.
  split; [reflexivity|]. split; [|split; [|reflexivity]].
  - apply Encode_unescaped.
  - intros H. unfold escape, URI.encodeURI, URI.encodeURIComponent.
    apply (Encode_ext _ _ (length p)); [lia|].
    eapply Forall_impl; [|exact H]. cbv beta. intros c Hc.
    now rewrite Hc.
Qed.

Lemma escape_is_encodeURI_witness :
  escape (str "/?:#") = Some (str "/?:#")
  /\ escape (str "a b.txt") = URI.encodeURIComponent (str "a b.txt").
Proof.
  split.
  - apply (proj1 (proj2 (escape_is_encodeURI (str "/?:#")))).
    repeat constructor.
  - apply (proj1 (proj2 (proj2 (escape_is_encodeURI (str "a b.txt"))))).
    repeat constructor.
Defined.

(** C4 fails on [/] and [:], which [escape] keeps and the URI-component
    rule encodes. *)
Lemma escape_keeps_slash_and_colon :
  escape (str "/a:b") = Some (str "/a:b")
  /\ URI.encodeURIComponent (str "/a:b") = Some (str "%2Fa%3Ab")
  /\ escape (str "/a:b") <> URI.encodeURIComponent (str "/a:b").
Proof. repeat split. discriminate. Qed.

(** ** No operation writes a backslash *)

Lemma hasBackslash_app (a b : jsstring) :
  hasBackslash (a ++ b) = hasBackslash a || hasBackslash b.
Proof. apply existsb_app. Qed.

Lemma hasBackslash_false (s : jsstring) :
  Forall (fun c => c <> backslash) s -> hasBackslash s = false.
Proof.
  induction 1 as [|c s Hc _ IH]; [reflexivity|].
  unfold hasBackslash in *. cbn [existsb]. rewrite IH, orb_false_r.
  apply Z.eqb_neq. congruence.
Qed.

Lemma sepFree_noBackslash (s : jsstring) : sepFree s -> hasBackslash s = false.
Proof.
  intros H. apply hasBackslash_false. eapply Forall_impl; [|exact H].
  intros c Hc ->. discriminate.
Qed.

Lemma arrayJoin_noBackslash (l : list jsstring) :
  Forall sepFree l -> hasBackslash (JS.arrayJoin l sSlash) = false.
Proof.
  induction 1 as [|s l Hs Hl IH]; [reflexivity|].
  destruct l as [|g gs]; [now apply sepFree_noBackslash|].
  rewrite arrayJoin_cons by discriminate.
  now rewrite !hasBackslash_app, IH, (sepFree_noBackslash _ Hs).
Qed.

Lemma orElse_dot_noBackslash (s : jsstring) :
  hasBackslash s = false -> hasBackslash (JS.orElse s sDot) = false.
Proof. now destruct s. Qed.

Lemma assemble_noBackslash (a e : bool) (l : list jsstring) :
  Forall sepFree l -> hasBackslash (assemble a e l) = false.
Proof.
  intros Hl. unfold assemble.
  set (l' := if a then shiftDots l else l).
  assert (Hl' : Forall sepFree l')
    by (subst l'; destruct a; [now apply shiftDots_Forall|exact Hl]).
  pose proof (orElse_dot_noBackslash _ (arrayJoin_noBackslash _ Hl')) as HJ.
  destruct ((length l' =? 0)%nat && a); [reflexivity|].
  cbv zeta.
  destruct e, (a && _); rewrite ?hasBackslash_app, HJ; reflexivity.
Qed.

Lemma normalize_noBackslash (h : Host) (p : jsstring) :
  hasBackslash (normalize h p) = false.
Proof.
  rewrite normalize_assemble. apply assemble_noBackslash.
  apply segments_sepFree, folded_segments, normalize_folded.
Qed.

Lemma join_noBackslash (h : Host) (paths : list jsstring) :
  hasBackslash (join h paths) = false.
Proof.
  destruct paths as [|p [|q rest]]; [reflexivity| |];
    apply normalize_noBackslash.
Qed.

Lemma resolve_noBackslash (h : Host) (pathSegments : list jsstring) :
  hasBackslash (resolve h pathSegments) = false.
Proof.
  unfold resolve. rewrite hasBackslash_app, arrayJoin_noBackslash; [reflexivity|].
  apply shiftDots_Forall, pathSplit_sepFree.
Qed.

Lemma Forall_removelast {A} (P : A -> Prop) (l : list A) :
  Forall P l -> Forall P (removelast l).
Proof.
  induction 1 as [|x l Hx Hl IH]; [constructor|].
  simpl. destruct l; [constructor|]. now constructor.
Qed.

Lemma popEmpties_Forall (P : jsstring -> Prop) (l : list jsstring) :
  Forall P l -> Forall P (popEmpties l).
Proof.
  unfold popEmpties. generalize (length l) as turns.
  intros turns. revert l.
  induction turns as [|turns IH]; intros l H; [exact H|].
  simpl. destruct (JS.lastOpt l) as [[|c x]|]; try exact H.
  now apply IH, Forall_removelast.
Qed.

(** The loop of [popEmpties] stops on its test, not for want of turns. *)
Lemma popEmpties_stops (l : list jsstring) :
  JS.lastOpt (popEmpties l) <> Some [].
Proof.
  unfold popEmpties.
  assert (H : forall turns l, length l <= turns ->
                JS.lastOpt (popEmpties_loop turns l) <> Some []).
  { clear l. induction turns as [|turns IH]; intros l Hlen.
    - destruct l; [discriminate|simpl in Hlen; lia].
    - simpl. destruct (JS.lastOpt l) as [[|c x]|] eqn:E;
        [|rewrite E; discriminate|rewrite E; discriminate].
      apply IH. rewrite (lastOpt_Some _ _ E), length_app in Hlen.
      simpl in Hlen. lia. }
  now apply H.
Qed.

Lemma dirname_noBackslash (h : Host) (p : jsstring) :
  hasBackslash (dirname h p) = false.
Proof.
  unfold dirname.
  set (arr := popEmpties (pathSplit p true)).
  set (arr' := if negb (length arr =? 0)%nat then removelast arr else arr).
  assert (H : Forall sepFree arr').
  { assert (Ha : Forall sepFree arr)
      by apply popEmpties_Forall, pathSplit_sepFree.
    subst arr'. destruct (negb _); [now apply Forall_removelast|exact Ha]. }
  pose proof (arrayJoin_noBackslash _ H) as HJ.
  destruct (isAbsolute h p).
  - destruct (JS.firstIs _ slash); [exact HJ|].
    now rewrite hasBackslash_app, HJ.
  - now apply orElse_dot_noBackslash.
Qed.

Lemma lastSegment_sepFree (p : jsstring) : sepFree (lastSegment p).
Proof.
  unfold lastSegment.
  destruct (JS.lastOpt (pathSplit p false)) as [f|] eqn:E; [|constructor].
  apply lastOpt_In in E.
  now apply (proj1 (Forall_forall _ _) (pathSplit_sepFree p false)).
Qed.

Lemma sepFree_firstn (n : nat) (s : jsstring) : sepFree s -> sepFree (firstn n s).
Proof.
  intros H. unfold sepFree in H. rewrite <- (firstn_skipn n s) in H.
  now apply Forall_app in H.
Qed.

Lemma sepFree_skipn (n : nat) (s : jsstring) : sepFree s -> sepFree (skipn n s).
Proof.
  intros H. unfold sepFree in H. rewrite <- (firstn_skipn n s) in H.
  now apply Forall_app in H.
Qed.

Lemma allSlashes_noBackslash (p : jsstring) :
  forallb (fun char => (char =? slash)%Z) p = true -> hasBackslash p = false.
Proof.
  intros H. apply hasBackslash_false, Forall_forall. intros c Hc.
  apply (proj1 (forallb_forall _ _) H) in Hc.
  apply Z.eqb_eq in Hc as ->. discriminate.
Qed.

Lemma basename_noBackslash (p : jsstring) (ext : option jsstring) :
  hasBackslash (basename p ext) = false.
Proof.
  unfold basename.
  destruct (forallb (fun char => (char =? slash)%Z) p) eqn:F.
  - destruct ext as [e|]; [|reflexivity].
    destruct (isEmpty e || JS.streq e p); [reflexivity|].
    now apply allSlashes_noBackslash.
  - pose proof (lastSegment_sepFree p) as H.
    destruct ext as [e|]; [|now apply sepFree_noBackslash].
    destruct (_ && _); apply sepFree_noBackslash; [|exact H].
    now apply sepFree_firstn.
Qed.

Lemma extname_noBackslash (p : jsstring) : hasBackslash (extname p) = false.
Proof.
  unfold extname. destruct (_ || _); [reflexivity|].
  apply sepFree_noBackslash, sepFree_skipn, lastSegment_sepFree.
Qed.

Lemma hexDigit_noBackslash (n : Z) : URI.hexDigit n <> backslash.
Proof.
  unfold URI.hexDigit, backslash.
  change 15%Z with (Z.ones 4). rewrite Z.land_ones by lia.
  pose proof (Z.mod_pos_bound n (2 ^ 4) ltac:(lia)) as B.
  destruct (Z.ltb_spec (n mod 2 ^ 4) 10); lia.
Qed.

Lemma percentEncode_noBackslash (octets : list Z) :
  hasBackslash (URI.percentEncode octets) = false.
Proof.
  apply hasBackslash_false. unfold URI.percentEncode.
  induction octets as [|o octets IH]; [constructor|].
  cbn [flat_map URI.percentOctet app].
  repeat (constructor; [first [apply hexDigit_noBackslash|discriminate]|]).
  exact IH.
Qed.

Lemma encodeURI_unescaped_noBackslash (c : codeUnit) :
  URI.inString c (URI.alwaysUnescaped ++ URI.uriReserved ++ str "#") = true ->
  c <> backslash.
Proof. intros H ->. vm_compute in H. discriminate. Qed.

Lemma encodeURI_noBackslash (n : nat) :
  forall s r, length s <= n ->
    URI.encodeURI s = Some r -> hasBackslash r = false.
Proof.
  unfold URI.encodeURI.
  induction n as [|n IH]; intros s r Hlen E.
  - destruct s; [|simpl in Hlen; lia]. now injection E as <-.
  - destruct s as [|c rest]; [now injection E as <-|].
    simpl in Hlen. cbn [URI.Encode] in E.
    destruct (URI.inString c _) eqn:U.
    + destruct (URI.Encode rest _) as [r'|] eqn:E'; [|discriminate].
      injection E as <-.
      change (c :: r') with ([c] ++ r').
      rewrite hasBackslash_app, (IH rest r') by (lia || assumption).
      rewrite orb_false_r. apply hasBackslash_false.
      constructor; [|constructor].
      now apply encodeURI_unescaped_noBackslash.
    + destruct (URI.isTrailingSurrogate c); [discriminate|].
      destruct (URI.isLeadingSurrogate c).
      * destruct rest as [|second rest']; [discriminate|].
        destruct (URI.isTrailingSurrogate second); [|discriminate].
        destruct (URI.Encode rest' _) as [r'|] eqn:E'; [|discriminate].
        injection E as <-. simpl in Hlen.
        rewrite hasBackslash_app, percentEncode_noBackslash.
        apply (IH rest'); [lia|assumption].
      * destruct (URI.Encode rest _) as [r'|] eqn:E'; [|discriminate].
        injection E as <-.
        rewrite hasBackslash_app, percentEncode_noBackslash.
        apply (IH rest); [lia|assumption].
Qed.

Lemma format_noBackslash (path : FormatInputPathObject) :
  hasBackslash (orEmpty (format_dir path)) = false ->
  hasBackslash (format_base path) = false ->
  hasBackslash (format path) = false.
Proof.
  intros Hd Hb.
  destruct (format_dir path) as [[|c d]|] eqn:E;
    try (unfold format; now rewrite E).
  rewrite (format_Some _ _ E) by discriminate.
  cbn [orEmpty] in Hd. unfold format_joined.
  destruct (JS.endsWith _ _); rewrite !hasBackslash_app, Hd, Hb; reflexivity.
Qed.

(** C2, as the code has it. [normalize], [join], [resolve], [relative],
    [dirname], [basename], [extname], every field of [parse] and [escape]
    produce strings without [\], whatever the input; [format] copies its
    fields, and produces a string without [\] when the directory and the
    base it is given hold none. *)
Theorem operations_write_no_backslash (h : Host) :
  (forall p, hasBackslash (normalize h p) = false)
  /\ (forall paths, hasBackslash (join h paths) = false)
  /\ (forall pathSegments, hasBackslash (resolve h pathSegments) = false)
  /\ (forall from to, hasBackslash (relative h from to) = false)
  /\ (forall p, hasBackslash (dirname h p) = false)
  /\ (forall p ext, hasBackslash (basename p ext) = false)
  /\ (forall p, hasBackslash (extname p) = false)
  /\ (forall p,
        hasBackslash (root (parse h p)) = false
        /\ hasBackslash (dir (parse h p)) = false
        /\ hasBackslash (base (parse h p)) = false
        /\ hasBackslash (ext (parse h p)) = false
        /\ hasBackslash (name (parse h p)) = false)
  /\ (forall p r, escape p = Some r -> hasBackslash r = false)
  /\ (forall path,
        hasBackslash (orEmpty (format_dir path)) = false ->
        hasBackslash (format_base path) = false ->
        hasBackslash (format path) = false).
Proof.
  split; [apply normalize_noBackslash|].
  split; [apply join_noBackslash|].
  split; [apply resolve_noBackslash|].
  split; [intros; apply join_noBackslash|].
  split; [apply dirname_noBackslash|].
  split; [apply basename_noBackslash|].
  split; [apply extname_noBackslash|].
  split.
  { intros p. unfold parse. cbn [root dir base ext name]. repeat split.
    - now destruct (JS.startsWith p sSlash).
    - apply dirname_noBackslash.
    - apply basename_noBackslash.
    - apply extname_noBackslash.
    - apply basename_noBackslash. }
  split; [|apply format_noBackslash].
  intros p r E. now apply (encodeURI_noBackslash (length p) p r).
Qed.

Lemma operations_write_no_backslash_witness :
  hasBackslash (format (asInput (parse web [97; 92; 98; 92; 99]%Z))) = false
  /\ escape [97; 92; 98]%Z = Some (str "a%5Cb")
  /\ hasBackslash (str "a%5Cb") = false.
Proof.
  pose proof (operations_write_no_backslash web)
    as (_ & _ & _ & _ & _ & _ & _ & _ & He & Hf).
  split; [|split; [reflexivity|]].
  - apply (Hf (asInput (parse web [97; 92; 98; 92; 99]%Z))); reflexivity.
  - apply (He [97; 92; 98]%Z (str "a%5Cb")). reflexivity.
Defined.

(** C2 fails on [format], which copies a [\] of its [dir] field. *)
Lemma format_keeps_backslash :
  format (mkFormatInput None (Some [97; 92; 98]%Z) (Some (str "c")) None None)
  = [97; 92; 98; 47; 99]%Z
  /\ hasBackslash
       (format (mkFormatInput None (Some [97; 92; 98]%Z) (Some (str "c"))
                              None None)) = true.
Proof. split; reflexivity. Qed.

(** ** parse and then format *)

Lemma arrayJoin_fields (p : jsstring) :
  hasBackslash p = false ->
  JS.arrayJoin (fst (fields p) :: snd (fields p)) sSlash = p.
Proof.
  induction p as [|c p IH]; [reflexivity|].
  unfold hasBackslash. cbn [existsb fields]. intros H.
  apply orb_false_iff in H as [Hc H]. specialize (IH H).
  destruct (fields p) as [f fs]. cbn [fst snd] in IH.
  unfold isSeparator. rewrite (Z.eqb_sym c backslash), Hc, orb_false_r.
  destruct (Z.eqb_spec c slash) as [->|_]; cbn [fst snd].
  - rewrite arrayJoin_cons by discriminate. now rewrite IH.
  - rewrite <- IH. now destruct fs.
Qed.

(** A path with a [/] and no [\] is cut at its last [/]. *)
Lemma split_last_slash (p : jsstring) :
  hasSlash p = true -> hasBackslash p = false ->
  exists pre lastf,
    p = pre ++ slash :: lastf /\ sepFree lastf /\ hasBackslash pre = false.
Proof.
  induction p as [|c p IH]; [discriminate|].
  unfold hasSlash, hasBackslash. cbn [existsb]. intros Hs Hb.
  apply orb_false_iff in Hb as [Hc Hb].
  destruct (hasSlash p) eqn:Hp.
  - destruct (IH eq_refl Hb) as (pre & lastf & -> & Hl & Hpre).
    exists (c :: pre), lastf. repeat split; [exact Hl|].
    unfold hasBackslash in *. cbn [existsb]. now rewrite Hc, Hpre.
  - unfold hasSlash in Hp. rewrite Hp, orb_false_r in Hs.
    apply Z.eqb_eq in Hs as <-.
    exists [], p. repeat split.
    apply Forall_forall. intros x Hx. unfold isSeparator.
    rewrite (Z.eqb_sym x slash), (Z.eqb_sym x backslash).
    apply orb_false_iff. split.
    + destruct (Z.eqb slash x) eqn:E; [|reflexivity].
      rewrite <- Hp. symmetry. apply existsb_exists. eauto.
    + destruct (Z.eqb backslash x) eqn:E; [|reflexivity].
      rewrite <- Hb. symmetry. apply existsb_exists. eauto.
Qed.

Lemma kept_true_last (lastf : jsstring) (fs : list jsstring) :
  lastf <> [] ->
  forall f, kept true f (fs ++ [lastf]) = f :: fs ++ [lastf].
Proof.
  intros Hne. induction fs as [|g gs IH]; intros f; simpl.
  - rewrite orb_true_r. destruct lastf; [congruence|reflexivity].
  - rewrite orb_true_r. simpl. now rewrite IH.
Qed.

Lemma kept_false_last (lastf : jsstring) (fs : list jsstring) :
  lastf <> [] ->
  forall f, JS.lastOpt (kept false f (fs ++ [lastf])) = Some lastf.
Proof.
  intros Hne. induction fs as [|g gs IH]; intros f.
  - simpl. destruct lastf as [|c l]; [congruence|].
    simpl. now destruct f.
  - cbn [app kept]. rewrite lastOpt_app; [apply IH|].
    intros E. specialize (IH g). rewrite E in IH. discriminate.
Qed.

Lemma popEmpties_last (lastf : jsstring) (l : list jsstring) :
  lastf <> [] -> popEmpties (l ++ [lastf]) = l ++ [lastf].
Proof.
  intros Hne. unfold popEmpties. rewrite length_app, Nat.add_comm.
  simpl. rewrite lastOpt_snoc. now destruct lastf.
Qed.

Lemma redundantSeparators_mid (a b : jsstring) :
  redundantSeparators (a ++ slash :: slash :: b) = true.
Proof.
  induction a as [|c a IH]; [reflexivity|].
  cbn [app redundantSeparators]. rewrite IH. apply orb_true_r.
Qed.

Lemma no_redundant_before_slash (pre lastf : jsstring) :
  redundantSeparators (pre ++ slash :: lastf) = false ->
  JS.endsWith pre sSlash = false.
Proof.
  intros H. rewrite endsWith_slash.
  destruct (JS.lastOpt pre) as [c|] eqn:E; [|reflexivity].
  destruct (Z.eqb_spec c slash) as [->|_]; [|reflexivity].
  rewrite (lastOpt_Some _ _ E), <- app_assoc in H.
  cbn [app] in H. now rewrite redundantSeparators_mid in H.
Qed.

Section LastSlash.

Variables pre lastf : jsstring.
Hypothesis Hpre : hasBackslash pre = false.
Hypothesis Hlast : sepFree lastf.
Hypothesis Hne : lastf <> [].

Let p := pre ++ slash :: lastf.

Lemma fields_last_slash :
  fields p = (fst (fields pre), snd (fields pre) ++ [lastf]).
Proof.
  unfold p. rewrite (fields_app_sep _ _ _ isSeparator_slash).
  now rewrite (fields_of_sepFree _ Hlast).
Qed.

(** What [dirname] joins: everything before the last [/]. *)
Lemma dirname_joined :
  let arr := popEmpties (pathSplit p true) in
  JS.arrayJoin (if negb (length arr =? 0)%nat then removelast arr else arr)
               sSlash
  = pre.
Proof.
  cbv zeta. rewrite pathSplit_kept, fields_last_slash. cbn [fst snd].
  rewrite (kept_true_last _ _ Hne), app_comm_cons.
  rewrite (popEmpties_last _ _ Hne), length_app, removelast_last.
  replace (length (fst (fields pre) :: snd (fields pre)) + length [lastf]
           =? 0)%nat with false
    by (symmetry; apply Nat.eqb_neq; simpl; lia).
  cbn [negb]. now apply arrayJoin_fields.
Qed.

Lemma lastSegment_last_slash : lastSegment p = lastf.
Proof.
  unfold lastSegment. rewrite pathSplit_kept, fields_last_slash.
  cbn [fst snd]. now rewrite (kept_false_last _ _ Hne).
Qed.

Lemma basename_last_slash : basename p None = lastf.
Proof.
  unfold basename.
  replace (forallb (fun char => (char =? slash)%Z) p) with false.
  - apply lastSegment_last_slash.
  - symmetry. unfold p. rewrite forallb_app. apply andb_false_iff. right.
    cbn [forallb]. rewrite Z.eqb_refl.
    destruct lastf as [|c l]; [congruence|].
    inversion Hlast; subst. cbn [forallb].
    now rewrite not_separator_slash.
Qed.

Lemma dirname_last_slash (h : Host) :
  dirname h p
  = if isAbsolute h p
    then if JS.firstIs pre slash then pre else sSlash ++ pre
    else JS.orElse pre sDot.
Proof. unfold dirname. now rewrite dirname_joined. Qed.

End LastSlash.

(** C1, as the code has it. [format (parse p)] is [p] for every path [p]
    without [\], without two separators side by side and without trailing
    [/] that holds a [/] and is absolute only if it begins with [/]. *)
Theorem format_parse_roundtrip (h : Host) (p : jsstring) :
  hasBackslash p = false ->
  redundantSeparators p = false ->
  JS.endsWith p sSlash = false ->
  hasSlash p = true ->
  JS.firstIs p slash = true \/ JS.startsWith p (origin h) = false ->
  format (asInput (parse h p)) = p.
Proof.
  intros Hb Hr He Hs Ha.
  destruct (split_last_slash p Hs Hb) as (pre & lastf & -> & Hl & Hpre).
  assert (Hne : lastf <> []).
  { intros ->. rewrite endsWith_slash_snoc in He. discriminate. }
  pose proof (no_redundant_before_slash _ _ Hr) as Hend.
  assert (Hdir : dirname h (pre ++ slash :: lastf) = JS.orElse pre sSlash).
  { rewrite (dirname_last_slash _ _ Hpre Hl Hne). unfold isAbsolute.
    destruct pre as [|c pre'].
    - reflexivity.
    - cbn [app JS.firstIs] in *. destruct Ha as [->| ->]; [reflexivity|].
      rewrite orb_false_r. now destruct (c =? slash)%Z. }
  rewrite (format_Some _ (JS.orElse pre sSlash)).
  - unfold format_base, asInput, parse. cbn [f_base base].
    rewrite (basename_last_slash _ _ Hl Hne). unfold format_joined.
    destruct pre as [|c pre']; [reflexivity|].
    cbn [JS.orElse]. now rewrite Hend.
  - unfold format_dir, asInput, parse. cbn [f_dir dir nullish]. now rewrite Hdir.
  - now destruct pre.
Qed.

Lemma format_parse_roundtrip_witness :
  format (asInput (parse web (str "/a/b/c.txt"))) = str "/a/b/c.txt"
  /\ format (asInput (parse fileHost (str "lib/Path.ts"))) = str "lib/Path.ts".
Proof.
  split.
  - apply (format_parse_roundtrip web (str "/a/b/c.txt"));
      try reflexivity. left. reflexivity.
  - apply (format_parse_roundtrip fileHost (str "lib/Path.ts"));
      try reflexivity. right. reflexivity.
Defined.

(** C1 fails on three paths without redundant separator and without
    trailing slash: on [a\b], written back with [/]; on the bare name [a],
    whose directory is [.], so that [format] gives [./a]; and, on a page of
    origin [null], on [null/a], which is absolute without a leading [/]. *)
Lemma format_parse_not_inverse :
  (redundantSeparators (str "a\b") = false
   /\ JS.endsWith (str "a\b") sSlash = false
   /\ format (asInput (parse web (str "a\b"))) = str "a/b")
  /\ (redundantSeparators (str "a") = false
      /\ JS.endsWith (str "a") sSlash = false
      /\ dir (parse web (str "a")) = str "."
      /\ format (asInput (parse web (str "a"))) = str "./a")
  /\ (redundantSeparators (str "null/a") = false
      /\ JS.endsWith (str "null/a") sSlash = false
      /\ format (asInput (parse fileHost (str "null/a"))) = str "/null/a")
  /\ format (asInput (parse web (str "a\b"))) <> str "a\b".
Proof. repeat split. discriminate. Qed.


(** * Further properties of the library *)

(** ** The segmenter *)

Lemma kept_false_filter (fs : list jsstring) :
  forall f, kept false f fs = filter (fun s => negb (isEmpty s)) (f :: fs).
Proof.
  induction fs as [|g gs IH]; intros f.
  - simpl. now destruct f.
  - cbn [kept]. rewrite IH. simpl. now destruct f.
Qed.

Lemma kept_true_filter (fs : list jsstring) :
  forall f,
    filter (fun s => negb (isEmpty s)) (kept true f fs)
    = filter (fun s => negb (isEmpty s)) (f :: fs).
Proof.
  induction fs as [|g gs IH]; intros f.
  - simpl. now destruct f.
  - cbn [kept]. rewrite orb_true_r, filter_app, IH.
    change (f :: g :: gs) with ([f] ++ g :: gs). now rewrite filter_app.
Qed.

(** Dropping the empty segments is all that separates the two modes of
    [pathSplit]. *)
Theorem pathSplit_default_is_filter (p : jsstring) :
  pathSplit p false
  = filter (fun s => negb (isEmpty s)) (pathSplit p true).
Proof.
  rewrite !pathSplit_kept, kept_true_filter. apply kept_false_filter.
Qed.

Lemma pathSplit_app_sep (a b : jsstring) (c : codeUnit) :
  isSeparator c = true ->
  pathSplit (a ++ c :: b) false = pathSplit a false ++ pathSplit b false.
Proof.
  intros Hc. rewrite !pathSplit_kept, (fields_app_sep _ _ _ Hc).
  rewrite !kept_false_filter. cbn [fst snd].
  now rewrite app_comm_cons, filter_app.
Qed.

(** The segments of strings joined with [/] are the segments of the
    strings, in order: this is what [join] and [resolve] split. *)
Theorem pathSplit_arrayJoin (paths : list jsstring) :
  pathSplit (JS.arrayJoin paths sSlash) false
  = concat (map (fun p => pathSplit p false) paths).
Proof.
  induction paths as [|p paths IH]; [reflexivity|].
  destruct paths as [|q paths].
  - simpl. now rewrite app_nil_r.
  - rewrite arrayJoin_cons by discriminate.
    change (p ++ sSlash ++ ?x) with (p ++ slash :: x).
    rewrite (pathSplit_app_sep _ _ _ isSeparator_slash), IH. reflexivity.
Qed.

(** Splitting undoes joining: segments joined with [/] are split into
    themselves. *)
Theorem pathSplit_inverts_join (segs : list jsstring) :
  Forall (fun s => s <> [] /\ ~ In slash s /\ ~ In backslash s) segs ->
  pathSplit (JS.arrayJoin segs sSlash) false = segs.
Proof.
  intros H. apply pathSplit_join. eapply Forall_impl; [|exact H].
  intros s (Hne & Hs & Hb). split; [exact Hne|].
  apply Forall_forall. intros c Hc. unfold isSeparator.
  apply orb_false_iff. split; apply Z.eqb_neq; congruence.
Qed.

Lemma pathSplit_inverts_join_witness :
  pathSplit (JS.arrayJoin [str "a"; str ".."; str "b.txt"] sSlash) false
  = [str "a"; str ".."; str "b.txt"].
Proof.
  apply (pathSplit_inverts_join [str "a"; str ".."; str "b.txt"]).
  repeat constructor; try discriminate;
    intros H; simpl in H; repeat destruct H as [H|H]; discriminate || exact H.
Defined.

Lemma isSeparator_toSlash (c : codeUnit) :
  isSeparator (toSlash c) = isSeparator c.
Proof.
  unfold toSlash. destruct (Z.eqb_spec c backslash) as [->|_]; reflexivity.
Qed.

Lemma toSlash_not_separator (c : codeUnit) :
  isSeparator c = false -> toSlash c = c.
Proof.
  unfold toSlash, isSeparator. intros H%orb_false_iff. now rewrite (proj2 H).
Qed.

(** [\] and [/] are the same to the segmenter, in both of its modes. *)
Theorem pathSplit_backslash_as_slash (p : jsstring) (keepEmpty : bool) :
  pathSplit (map toSlash p) keepEmpty = pathSplit p keepEmpty.
Proof.
  unfold pathSplit. generalize (@nil jsstring) as arr.
  generalize (@nil codeUnit) as current.
  induction p as [|c p IH]; intros current arr; [reflexivity|].
  cbn [map pathSplit_loop]. rewrite isSeparator_toSlash.
  destruct (isSeparator c) eqn:Hc.
  - destruct (negb (isEmpty current) || keepEmpty); apply IH.
  - rewrite (toSlash_not_separator _ Hc). apply IH.
Qed.

Lemma sepFree_of_no_separator (p : jsstring) :
  hasSlash p = false -> hasBackslash p = false -> sepFree p.
Proof.
  unfold hasSlash, hasBackslash. intros Hs Hb.
  apply Forall_forall. intros x Hx. unfold isSeparator.
  rewrite (Z.eqb_sym x slash), (Z.eqb_sym x backslash).
  apply orb_false_iff. split.
  - destruct (Z.eqb slash x) eqn:E; [|reflexivity].
    rewrite <- Hs. symmetry. apply existsb_exists. eauto.
  - destruct (Z.eqb backslash x) eqn:E; [|reflexivity].
    rewrite <- Hb. symmetry. apply existsb_exists. eauto.
Qed.

Lemma endsWith_sepFree (s : jsstring) :
  sepFree s -> JS.endsWith s sSlash = false.
Proof.
  intros H. rewrite endsWith_slash.
  destruct (JS.lastOpt s) as [c|] eqn:E; [|reflexivity].
  apply lastOpt_In in E. apply not_separator_slash.
  now apply (proj1 (Forall_forall _ _) H).
Qed.

Lemma kept_true_snoc (x : jsstring) (fs : list jsstring) :
  forall f,
    kept true f (fs ++ [x]) = (f :: fs) ++ if isEmpty x then [] else [x].
Proof.
  induction fs as [|g gs IH]; intros f.
  - simpl. rewrite orb_true_r. now destruct x.
  - cbn [app kept]. rewrite orb_true_r, IH. reflexivity.
Qed.

(** Joining what [pathSplit] keeps with empty segments gives back a path
    written with [/], but for one trailing [/]. *)
Theorem pathSplit_keepEmpty_join (p : jsstring) :
  hasBackslash p = false ->
  JS.arrayJoin (pathSplit p true) sSlash
    ++ (if JS.endsWith p sSlash then sSlash else [])
  = p.
Proof.
  intros Hb. destruct (hasSlash p) eqn:Hs.
  - destruct (split_last_slash p Hs Hb) as (pre & lastf & E & Hl & Hpre).
    pose proof (arrayJoin_fields p Hb) as Hp.
    rewrite pathSplit_kept. subst p.
    rewrite (fields_app_sep _ _ _ isSeparator_slash) in *.
    rewrite (fields_of_sepFree _ Hl) in *. cbn [fst snd] in *.
    rewrite kept_true_snoc.
    destruct lastf as [|c l]; cbn [isEmpty].
    + rewrite app_nil_r, (arrayJoin_fields _ Hpre), endsWith_slash_snoc.
      reflexivity.
    + rewrite <- app_comm_cons, Hp.
      rewrite endsWith_slash_app by discriminate.
      rewrite endsWith_slash_cons by discriminate.
      rewrite (endsWith_sepFree _ Hl). apply app_nil_r.
  - pose proof (sepFree_of_no_separator _ Hs Hb) as Hp.
    rewrite pathSplit_kept, (fields_of_sepFree _ Hp), (endsWith_sepFree _ Hp).
    cbn [fst snd kept]. rewrite app_nil_r. now destruct p.
Qed.

Lemma pathSplit_keepEmpty_join_witness :
  JS.arrayJoin (pathSplit (str "/a//b/") true) sSlash ++ sSlash = str "/a//b/".
Proof.
  apply (pathSplit_keepEmpty_join (str "/a//b/")). reflexivity.
Defined.

(** ** normalize, join *)

Lemma orElse_dot_nonempty (s t : jsstring) : JS.orElse s sDot ++ t <> [].
Proof. destruct s; discriminate. Qed.

Lemma firstIs_nonempty (s : jsstring) (c : codeUnit) :
  JS.firstIs s c = true -> s <> [].
Proof. destruct s; [discriminate|discriminate]. Qed.

Lemma normalize_nonempty (h : Host) (p : jsstring) : normalize h p <> [].
Proof.
  destruct (isAbsolute h p) eqn:Ha.
  - apply (firstIs_nonempty _ slash). now rewrite normalize_first.
  - rewrite normalize_assemble, Ha, assemble_relative by apply normalize_folded.
    apply orElse_dot_nonempty.
Qed.

(** No operation that returns a path returns the empty string. *)
Theorem paths_returned_are_not_empty (h : Host) :
  (forall p, normalize h p <> [])
  /\ (forall paths, join h paths <> [])
  /\ (forall pathSegments, resolve h pathSegments <> [])
  /\ (forall from to, relative h from to <> [])
  /\ (forall p, dirname h p <> []).
Proof.
  split; [apply normalize_nonempty|].
  split; [intros [|p [|q rest]]; [discriminate| |]; apply normalize_nonempty|].
  split; [discriminate|].
  split; [intros; apply normalize_nonempty|].
  intros p. unfold dirname.
  destruct (isAbsolute h p).
  - destruct (JS.firstIs _ slash) eqn:F; [|discriminate].
    now apply (firstIs_nonempty _ slash).
  - rewrite <- (app_nil_r (JS.orElse _ _)). apply orElse_dot_nonempty.
Qed.

Lemma pathSplit_assemble_relative (e : bool) (l : list jsstring) :
  folded l -> l <> [] -> pathSplit (assemble false e l) false = l.
Proof.
  intros Hl Hne. rewrite assemble_relative by exact Hl.
  pose proof (folded_segments _ Hl) as Hseg.
  destruct l as [|s l']; [congruence|].
  rewrite orElse_arrayJoin by now inversion Hseg.
  destruct e.
  - rewrite pathSplit_trailing_slash. now apply pathSplit_join.
  - rewrite app_nil_r. now apply pathSplit_join.
Qed.

Lemma isName_plain (names : list jsstring) :
  Forall isName names -> Forall plain names.
Proof. intros H. eapply Forall_impl; [|exact H]. now intros s (_ & H1 & H2). Qed.

(** [normalize] leaves [/] at the front of an absolute path and nowhere
    else at the front: its result begins with [/] exactly when the path is
    absolute, and is then absolute for the same host. *)
Theorem normalize_keeps_absoluteness (h : Host) (p : jsstring) :
  JS.firstIs (normalize h p) slash = isAbsolute h p
  /\ (isAbsolute h p = true -> isAbsolute h (normalize h p) = true).
Proof.
  split; [apply normalize_first|].
  intros Ha. apply isAbsolute_first. now rewrite normalize_first.
Qed.

Lemma normalize_keeps_absoluteness_witness :
  isAbsolute web (normalize web (str "https://example.com/a/../b")) = true.
Proof.
  apply (proj2 (normalize_keeps_absoluteness web
                  (str "https://example.com/a/../b"))).
  reflexivity.
Defined.

(** In what [normalize] returns for an absolute path no segment is [.] or
    [..]. *)
Theorem normalize_absolute_plain (h : Host) (p : jsstring) :
  isAbsolute h p = true ->
  Forall plain (pathSplit (normalize h p) false).
Proof.
  intros Ha. rewrite (pathSplit_normalize_absolute _ _ Ha).
  destruct (normalize_folded p) as (k & names & -> & Hn).
  rewrite (shiftDots_folded _ _ Hn). now apply isName_plain.
Qed.

Lemma normalize_absolute_plain_witness :
  Forall plain (pathSplit (normalize web (str "/a/../../b/./c")) false).
Proof.
  apply (normalize_absolute_plain web (str "/a/../../b/./c")). reflexivity.
Defined.

(** What [normalize] returns for a path that is not absolute is [.] or [./],
    or else is made of some [..] segments followed by segments that are
    neither [.] nor [..]. *)
Theorem normalize_relative_shape (h : Host) (p : jsstring) :
  isAbsolute h p = false ->
  normalize h p = sDot \/ normalize h p = sDot ++ sSlash
  \/ exists k names,
       pathSplit (normalize h p) false = repeat sDotDot k ++ names
       /\ Forall plain names.
Proof.
  intros Ha. rewrite normalize_assemble, Ha.
  pose proof (normalize_folded p) as Hl.
  destruct (fold_left normalize_step (pathSplit p false) []) as [|s l] eqn:E.
  - unfold assemble. simpl. destruct (JS.endsWith p sSlash); auto.
  - right. right. rewrite pathSplit_assemble_relative by (exact Hl || discriminate).
    destruct Hl as (k & names & -> & Hn).
    exists k, names. split; [reflexivity|now apply isName_plain].
Qed.

Lemma normalize_relative_shape_witness :
  normalize web (str "a/..") = sDot \/ normalize web (str "a/..") = sDot ++ sSlash
  \/ exists k names,
       pathSplit (normalize web (str "a/..")) false = repeat sDotDot k ++ names
       /\ Forall plain names.
Proof.
  apply (normalize_relative_shape web (str "a/..")). reflexivity.
Defined.

Lemma redundantSeparators_slash_join (l : list jsstring) (e : bool) :
  Forall segment l ->
  redundantSeparators
    (slash :: match l with
              | [] => []
              | _ :: _ => JS.arrayJoin l sSlash ++ if e then sSlash else []
              end) = false.
Proof.
  intros H. destruct l as [|s l]; [reflexivity|].
  pose proof (redundantSeparators_join l e s H) as R.
  assert (Hs : segment s) by now inversion H.
  destruct (arrayJoin_head s l Hs) as (c & r & E & Hc).
  rewrite E in *. cbn [app redundantSeparators] in *.
  now rewrite R, Hc, andb_false_r.
Qed.

Lemma normalize_no_redundant (h : Host) (p : jsstring) :
  redundantSeparators (normalize h p) = false.
Proof.
  rewrite normalize_assemble.
  pose proof (normalize_folded p) as Hl.
  destruct (isAbsolute h p).
  - destruct (assemble_absolute (JS.endsWith p sSlash) _ Hl)
      as (names & Hn & _ & ->).
    apply redundantSeparators_slash_join, folded_segments.
    now apply folded_names.
  - rewrite assemble_relative by exact Hl.
    pose proof (folded_segments _ Hl) as Hseg.
    destruct (fold_left normalize_step (pathSplit p false) []) as [|s l].
    + now destruct (JS.endsWith p sSlash).
    + rewrite orElse_arrayJoin by now inversion Hseg.
      now apply redundantSeparators_join.
Qed.

(** [normalize], [join], [relative] and [resolve] never return two
    separators side by side. *)
Theorem no_redundant_separators_returned (h : Host) :
  (forall p, redundantSeparators (normalize h p) = false)
  /\ (forall paths, redundantSeparators (join h paths) = false)
  /\ (forall from to, redundantSeparators (relative h from to) = false)
  /\ (forall pathSegments,
        redundantSeparators (resolve h pathSegments) = false).
Proof.
  split; [apply normalize_no_redundant|].
  split; [intros [|p [|q rest]]; [reflexivity| |]; apply normalize_no_redundant|].
  split; [intros; apply normalize_no_redundant|].
  intros pathSegments. unfold resolve.
  set (segs := shiftDots _).
  assert (H : Forall segment segs)
    by apply shiftDots_Forall, pathSplit_segments.
  pose proof (redundantSeparators_slash_join segs false H) as R.
  destruct segs; [reflexivity|]. now rewrite app_nil_r in R.
Qed.

(** A trailing [/] is kept by [normalize], and none is added but the one of
    the root [/]. *)
Theorem normalize_trailing_slash (h : Host) (p : jsstring) :
  (JS.endsWith p sSlash = true -> JS.endsWith (normalize h p) sSlash = true)
  /\ (JS.endsWith p sSlash = false ->
      normalize h p = sSlash \/ JS.endsWith (normalize h p) sSlash = false).
Proof.
  rewrite normalize_assemble.
  pose proof (normalize_folded p) as Hl.
  set (l := fold_left normalize_step (pathSplit p false) []) in *.
  destruct (isAbsolute h p).
  - destruct (shiftDots l) eqn:E.
    + assert (R : assemble true (JS.endsWith p sSlash) l = sSlash)
        by (unfold assemble; now rewrite E).
      rewrite R. split; [reflexivity|now left].
    + assert (R : JS.endsWith (assemble true (JS.endsWith p sSlash) l) sSlash
                  = JS.endsWith p sSlash)
        by (apply endsWith_assemble_absolute; [exact Hl|rewrite E; discriminate]).
      rewrite R. split; [trivial|now right].
  - rewrite endsWith_assemble_relative by exact Hl.
    split; [trivial|now right].
Qed.

Lemma normalize_trailing_slash_witness :
  JS.endsWith (normalize web (str "a/b/../")) sSlash = true
  /\ (normalize web (str "/a/..") = sSlash
      \/ JS.endsWith (normalize web (str "/a/..")) sSlash = false).
Proof.
  split.
  - apply (proj1 (normalize_trailing_slash web (str "a/b/../"))). reflexivity.
  - apply (proj2 (normalize_trailing_slash web (str "/a/.."))). reflexivity.
Defined.

(** On a path with a segment and without [.] and [..] segments,
    [normalize] only rewrites the separators: the segments stay. *)
Theorem normalize_plain_segments (h : Host) (p : jsstring) :
  Forall plain (pathSplit p false) -> pathSplit p false <> [] ->
  pathSplit (normalize h p) false = pathSplit p false.
Proof.
  intros Hp Hne.
  assert (Hn : Forall isName (pathSplit p false)).
  { pose proof (pathSplit_segments p) as Hs.
    apply Forall_forall. intros s Hin.
    destruct (proj1 (Forall_forall _ _) Hp s Hin) as [H1 H2].
    split; [now apply (proj1 (Forall_forall _ _) Hs)|now split]. }
  assert (E : fold_left normalize_step (pathSplit p false) [] = pathSplit p false)
    by (apply (fold_normalize_id _ []); now apply folded_names).
  rewrite normalize_assemble, E.
  destruct (isAbsolute h p).
  - rewrite pathSplit_assemble_absolute by now apply folded_names.
    now apply shiftDots_names.
  - apply pathSplit_assemble_relative; [now apply folded_names|exact Hne].
Qed.

Lemma normalize_plain_segments_witness :
  pathSplit (normalize web (str "a//b\c/")) false
  = pathSplit (str "a//b\c/") false.
Proof.
  apply (normalize_plain_segments web (str "a//b\c/")).
  - repeat constructor; discriminate.
  - discriminate.
Defined.

(** ** resolve *)

Lemma join_nonempty (h : Host) (paths : list jsstring) :
  paths <> [] -> join h paths = normalize h (JS.arrayJoin paths sSlash).
Proof. destruct paths as [|p [|q rest]]; [congruence|reflexivity|reflexivity]. Qed.

Lemma sliceFromLastAbsolute_nonempty (h : Host) (l s : list jsstring) :
  sliceFromLastAbsolute h l = Some s -> s <> [].
Proof.
  induction l as [|p rest IH]; [discriminate|].
  simpl. destruct (sliceFromLastAbsolute h rest) as [s'|].
  - intros [= <-]. now apply IH.
  - destruct (isAbsolute h p); [|discriminate]. now intros [= <-].
Qed.

Lemma shiftDots_normalize (h : Host) (q : jsstring) :
  Forall isName (shiftDots (pathSplit (normalize h q) false)).
Proof.
  destruct (isAbsolute h q) eqn:Ha.
  - rewrite (pathSplit_normalize_absolute _ _ Ha), shiftDots_idem.
    destruct (normalize_folded q) as (k & names & -> & Hn).
    now rewrite (shiftDots_folded _ _ Hn).
  - rewrite normalize_assemble, Ha.
    pose proof (normalize_folded q) as Hl.
    destruct (fold_left normalize_step (pathSplit q false) []) as [|s l] eqn:E.
    + unfold assemble. simpl. destruct (JS.endsWith q sSlash); constructor.
    + rewrite pathSplit_assemble_relative by (exact Hl || discriminate).
      destruct Hl as (k & names & -> & Hn).
      now rewrite (shiftDots_folded _ _ Hn).
Qed.

(** [resolve] returns [/] followed by names joined with [/]. *)
Lemma resolve_names (h : Host) (pathSegments : list jsstring) :
  exists names,
    Forall isName names
    /\ resolve h pathSegments = slash :: JS.arrayJoin names sSlash.
Proof.
  unfold resolve.
  assert (H : exists q,
             match sliceFromLastAbsolute h pathSegments with
             | Some pathSegments' => join h pathSegments'
             | None => join h [pathname h; join h pathSegments]
             end = normalize h q).
  { destruct (sliceFromLastAbsolute h pathSegments) as [s|] eqn:E.
    - eexists. apply join_nonempty.
      now apply (sliceFromLastAbsolute_nonempty h pathSegments).
    - eexists. reflexivity. }
  destruct H as [q ->].
  eexists. split; [apply (shiftDots_normalize h q)|reflexivity].
Qed.

Lemma names_segments (names : list jsstring) :
  Forall isName names -> Forall segment names.
Proof. intros H. eapply Forall_impl; [|exact H]. now intros s [Hs _]. Qed.

(** No segment of what [resolve] returns is [.] or [..], wherever it
    stands. *)
Theorem resolve_plain (h : Host) (pathSegments : list jsstring) :
  Forall plain (pathSplit (resolve h pathSegments) false).
Proof.
  destruct (resolve_names h pathSegments) as (names & Hn & ->).
  rewrite pathSplit_leading_slash, pathSplit_join by now apply names_segments.
  now apply isName_plain.
Qed.

(** What [resolve] returns has no trailing [/], unless it is the root. *)
Theorem resolve_no_trailing_slash (h : Host) (pathSegments : list jsstring) :
  resolve h pathSegments = sSlash
  \/ JS.endsWith (resolve h pathSegments) sSlash = false.
Proof.
  destruct (resolve_names h pathSegments) as (names & Hn & ->).
  destruct names as [|n names]; [now left|right].
  pose proof (names_segments _ Hn) as Hseg.
  assert (Hs : segment n) by now inversion Hseg.
  destruct (arrayJoin_head n names Hs) as (c & r & E & _).
  rewrite endsWith_slash_cons by (rewrite E; discriminate).
  now apply arrayJoin_last.
Qed.

(** Resolving what [resolve] returned changes nothing. *)
Theorem resolve_idempotent (h : Host) (pathSegments : list jsstring) :
  resolve h [resolve h pathSegments] = resolve h pathSegments.
Proof.
  destruct (resolve_names h pathSegments) as (names & Hn & ->).
  set (r := slash :: JS.arrayJoin names sSlash).
  assert (Ha : isAbsolute h r = true) by now apply isAbsolute_first.
  unfold resolve at 1. cbn [sliceFromLastAbsolute]. rewrite Ha.
  cbn [join]. rewrite (pathSplit_normalize_absolute _ _ Ha), shiftDots_idem.
  unfold r at 1.
  rewrite pathSplit_leading_slash, pathSplit_join by now apply names_segments.
  rewrite (fold_normalize_id names []) by now apply folded_names.
  cbn [app]. now rewrite (shiftDots_names _ Hn).
Qed.

Lemma sliceFromLastAbsolute_app (h : Host) (before l s : list jsstring) :
  sliceFromLastAbsolute h l = Some s ->
  sliceFromLastAbsolute h (before ++ l) = Some s.
Proof.
  intros H. induction before as [|p before IH]; [exact H|].
  simpl. now rewrite IH.
Qed.

Lemma sliceFromLastAbsolute_cons (h : Host) (q : jsstring) (l : list jsstring) :
  isAbsolute h q = true -> exists s, sliceFromLastAbsolute h (q :: l) = Some s.
Proof.
  intros Hq. simpl. destruct (sliceFromLastAbsolute h l); [eauto|].
  rewrite Hq. eauto.
Qed.

Lemma sliceFromLastAbsolute_origin (o pn pn' : jsstring) (l : list jsstring) :
  sliceFromLastAbsolute (mkHost o pn) l = sliceFromLastAbsolute (mkHost o pn') l.
Proof. induction l as [|p l IH]; [reflexivity|]. simpl. now rewrite IH. Qed.

(** The arguments of [resolve] that stand before an absolute argument are
    not read, and neither is the current location. *)
Theorem resolve_from_absolute (o pn pn' : jsstring) (q : jsstring)
    (before after : list jsstring) :
  isAbsolute (mkHost o pn) q = true ->
  resolve (mkHost o pn) (before ++ q :: after)
  = resolve (mkHost o pn') (q :: after).
Proof.
  intros Hq.
  destruct (sliceFromLastAbsolute_cons _ q after Hq) as [s Hs].
  unfold resolve.
  rewrite (sliceFromLastAbsolute_app _ before _ _ Hs).
  rewrite <- (sliceFromLastAbsolute_origin o pn pn'), Hs.
  reflexivity.
Qed.

Lemma resolve_from_absolute_witness :
  resolve web [str "x"; str "../y"; str "/a"; str "b"]
  = resolve webElsewhere [str "/a"; str "b"].
Proof.
  apply (resolve_from_absolute (str "https://example.com") (str "/docs/")
           (str "/elsewhere") (str "/a") [str "x"; str "../y"] [str "b"]).
  reflexivity.
Defined.

(** ** dirname and basename *)

Lemma pathSplit_trailing_separator (p : jsstring) (c : codeUnit) :
  isSeparator c = true -> pathSplit (p ++ [c]) false = pathSplit p false.
Proof. intros Hc. rewrite (pathSplit_app_sep _ _ _ Hc). apply app_nil_r. Qed.

Lemma not_allSlashes_app (p q : jsstring) :
  forallb (fun char => (char =? slash)%Z) p = false ->
  forallb (fun char => (char =? slash)%Z) (p ++ q) = false.
Proof. intros H. rewrite forallb_app. apply andb_false_iff. now left. Qed.

Lemma not_allSlashes_segment (pre s : jsstring) :
  segment s -> forallb (fun char => (char =? slash)%Z) (pre ++ s) = false.
Proof.
  intros [Hne Hs]. rewrite forallb_app. apply andb_false_iff. right.
  destruct s as [|c s]; [congruence|]. inversion Hs; subst.
  cbn [forallb]. now rewrite not_separator_slash.
Qed.

Lemma lastSegment_after_separator (pre lastf : jsstring) (c : codeUnit) :
  isSeparator c = true -> segment lastf ->
  lastSegment (pre ++ c :: lastf) = lastf.
Proof.
  intros Hc [Hne Hs]. unfold lastSegment.
  rewrite pathSplit_kept, (fields_app_sep _ _ _ Hc), (fields_of_sepFree _ Hs).
  cbn [fst snd]. now rewrite (kept_false_last _ _ Hne).
Qed.

(** The base name is the segment after the last separator, whatever stands
    before it and whichever separator it is. *)
Theorem basename_is_last_segment (pre lastf : jsstring) (c : codeUnit) :
  isSeparator c = true -> lastf <> [] ->
  ~ In slash lastf -> ~ In backslash lastf ->
  basename (pre ++ c :: lastf) None = lastf
  /\ basename lastf None = lastf.
Proof.
  intros Hc Hne Hs Hb.
  assert (Hseg : segment lastf).
  { split; [exact Hne|]. apply Forall_forall. intros x Hx. unfold isSeparator.
    apply orb_false_iff. split; apply Z.eqb_neq; congruence. }
  split; unfold basename.
  - change (pre ++ c :: lastf) with (pre ++ [c] ++ lastf).
    rewrite app_assoc, (not_allSlashes_segment _ _ Hseg), <- app_assoc.
    now apply lastSegment_after_separator.
  - pose proof (not_allSlashes_segment [] _ Hseg) as F. cbn [app] in F.
    rewrite F.
    unfold lastSegment. rewrite pathSplit_kept.
    rewrite (fields_of_sepFree _ (proj2 Hseg)). cbn [fst snd kept].
    destruct lastf; [congruence|reflexivity].
Qed.

Lemma basename_is_last_segment_witness :
  basename (str "C:\dir//" ++ backslash :: str "file.txt") None = str "file.txt"
  /\ basename (str "file.txt") None = str "file.txt".
Proof.
  apply (basename_is_last_segment (str "C:\dir//") (str "file.txt") backslash).
  - reflexivity.
  - discriminate.
  - intros H; simpl in H; repeat destruct H as [H|H]; discriminate || exact H.
  - intros H; simpl in H; repeat destruct H as [H|H]; discriminate || exact H.
Defined.

(** Separators at the end of a path do not change its base name, unless the
    path is made of [/] only. *)
Theorem basename_ignores_trailing_separator (p : jsstring) (c : codeUnit)
    (ext : option jsstring) :
  forallb (fun char => (char =? slash)%Z) p = false ->
  isSeparator c = true ->
  basename (p ++ [c]) ext = basename p ext.
Proof.
  intros Hp Hc. unfold basename, lastSegment.
  now rewrite (not_allSlashes_app _ [c] Hp), Hp, (pathSplit_trailing_separator _ _ Hc).
Qed.

Lemma basename_ignores_trailing_separator_witness :
  basename (str "a/b.txt" ++ [backslash]) (Some (str ".txt"))
  = basename (str "a/b.txt") (Some (str ".txt")).
Proof.
  apply (basename_ignores_trailing_separator (str "a/b.txt") backslash);
    reflexivity.
Defined.

Lemma endsWith_inv (s suffix : jsstring) :
  JS.endsWith s suffix = true ->
  s = firstn (length s - length suffix) s ++ suffix.
Proof.
  unfold JS.endsWith. intros H. apply andb_true_iff in H as [_ H].
  destruct (streq_spec (skipn (length s - length suffix) s) suffix) as [E|];
    [|discriminate].
  rewrite <- E at 2. symmetry. apply firstn_skipn.
Qed.

(** When [basename] removes the extension it is asked to remove, what is
    left is not empty and, followed by the extension, is the base name;
    otherwise the base name is returned whole.  A segment equal to the
    extension is kept. *)
Theorem basename_removes_extension (p e : jsstring) :
  forallb (fun char => (char =? slash)%Z) p = false ->
  basename p (Some e) = basename p None
  \/ (e <> [] /\ basename p (Some e) <> []
      /\ basename p (Some e) ++ e = basename p None).
Proof.
  intros Hp. unfold basename. rewrite Hp.
  destruct (negb (isEmpty e) && JS.endsWith (lastSegment p) e
            && (length e <? length (lastSegment p))%nat) eqn:C; [right|now left].
  apply andb_true_iff in C as [C Hlen].
  apply andb_true_iff in C as [Hne Hend].
  apply Nat.ltb_lt in Hlen. unfold JS.substringTo.
  split; [now destruct e|]. split.
  - intros E. apply (f_equal (@length codeUnit)) in E.
    rewrite length_firstn in E. simpl in E. lia.
  - symmetry. now apply endsWith_inv.
Qed.

Lemma basename_removes_extension_witness :
  basename (str "a/b.txt") (Some (str ".txt")) = basename (str "a/b.txt") None
  \/ (str ".txt" <> [] /\ basename (str "a/b.txt") (Some (str ".txt")) <> []
      /\ basename (str "a/b.txt") (Some (str ".txt")) ++ str ".txt"
         = basename (str "a/b.txt") None).
Proof.
  apply (basename_removes_extension (str "a/b.txt") (str ".txt")). reflexivity.
Defined.

Lemma popEmpties_snoc_empty (l : list jsstring) :
  popEmpties (l ++ [[]]) = popEmpties l.
Proof.
  unfold popEmpties. rewrite length_app, Nat.add_comm. cbn [length Nat.add].
  cbn [popEmpties_loop]. now rewrite lastOpt_snoc, removelast_last.
Qed.

Lemma popEmpties_pathSplit_trailing (p : jsstring) (c : codeUnit) :
  isSeparator c = true ->
  popEmpties (pathSplit (p ++ [c]) true) = popEmpties (pathSplit p true).
Proof.
  intros Hc. rewrite !pathSplit_kept, (fields_app_sep _ _ _ Hc).
  destruct (fields p) as [f fs]. cbn [fst snd fields].
  rewrite kept_true_snoc. cbn [isEmpty]. rewrite app_nil_r.
  destruct fs as [|x fs] using rev_ind.
  - cbn [kept]. destruct f; [reflexivity|reflexivity].
  - clear IHfs. rewrite kept_true_snoc.
    destruct x; cbn [isEmpty]; [|reflexivity].
    rewrite app_nil_r, app_comm_cons. apply popEmpties_snoc_empty.
Qed.

(** A separator at the end of a path does not change its directory, as long
    as it does not change whether the path is absolute. *)
Theorem dirname_ignores_trailing_separator (h : Host) (p : jsstring)
    (c : codeUnit) :
  isSeparator c = true ->
  isAbsolute h (p ++ [c]) = isAbsolute h p ->
  dirname h (p ++ [c]) = dirname h p.
Proof.
  intros Hc Ha. unfold dirname.
  now rewrite (popEmpties_pathSplit_trailing _ _ Hc), Ha.
Qed.

Lemma dirname_ignores_trailing_separator_witness :
  dirname web (str "/a/b//" ++ [slash]) = dirname web (str "/a/b//").
Proof.
  apply (dirname_ignores_trailing_separator web (str "/a/b//") slash);
    reflexivity.
Defined.

Lemma dirname_of_bare_name_eq (h : Host) (p : jsstring) :
  hasSlash p = false -> hasBackslash p = false ->
  dirname h p = if isAbsolute h p then sSlash else sDot.
Proof.
  intros Hs Hb. pose proof (sepFree_of_no_separator _ Hs Hb) as Hp.
  unfold dirname. rewrite pathSplit_kept, (fields_of_sepFree _ Hp).
  cbn [fst snd kept].
  destruct p as [|c p]; [reflexivity|].
  cbn [isEmpty]. unfold popEmpties. cbn [length popEmpties_loop JS.lastOpt].
  reflexivity.
Qed.

(** A path without separator has the directory [.], or [/] when it is
    absolute (it begins with the origin). *)
Theorem dirname_of_bare_name (h : Host) (p : jsstring) :
  hasSlash p = false -> hasBackslash p = false ->
  dirname h p = if isAbsolute h p then sSlash else sDot.
Proof. apply dirname_of_bare_name_eq. Qed.

Lemma dirname_of_bare_name_witness :
  dirname web (str "index.html") = sDot.
Proof.
  apply (dirname_of_bare_name web (str "index.html")); reflexivity.
Defined.

(** The directory of a path that ends with [/] and a segment is what stands
    before that [/], when it is not empty, holds no [\], and begins with
    [/] if the path is absolute. *)
Theorem dirname_before_last_slash (h : Host) (pre lastf : jsstring) :
  hasBackslash pre = false -> pre <> [] ->
  lastf <> [] -> ~ In slash lastf -> ~ In backslash lastf ->
  (isAbsolute h (pre ++ slash :: lastf) = true -> JS.firstIs pre slash = true) ->
  dirname h (pre ++ slash :: lastf) = pre.
Proof.
  intros Hpre Hne Hl Hs Hb Ha.
  assert (Hsep : sepFree lastf).
  { apply Forall_forall. intros x Hx. unfold isSeparator.
    apply orb_false_iff. split; apply Z.eqb_neq; congruence. }
  rewrite (dirname_last_slash _ _ Hpre Hsep Hl).
  destruct (isAbsolute h (pre ++ slash :: lastf)).
  - now rewrite Ha.
  - now destruct pre.
Qed.

Lemma dirname_before_last_slash_witness :
  dirname web (str "/a//b" ++ slash :: str "c.txt") = str "/a//b".
Proof.
  apply (dirname_before_last_slash web (str "/a//b") (str "c.txt"));
    try reflexivity; try discriminate;
    intros H; simpl in H; repeat destruct H as [H|H]; discriminate || exact H.
Defined.

(** ** extname and parse *)

Lemma lastIndexOf_absent (s : jsstring) (c : codeUnit) :
  ~ In c s -> JS.lastIndexOf s c = (-1)%Z.
Proof.
  induction s as [|x s IH]; [reflexivity|].
  intros H. cbn [JS.lastIndexOf]. rewrite IH by (intros Hin; apply H; now right).
  simpl. destruct (Z.eqb_spec x c) as [->|_]; [|reflexivity].
  exfalso. apply H. now left.
Qed.

Lemma lastIndexOf_last (a b : jsstring) (c : codeUnit) :
  ~ In c b -> JS.lastIndexOf (a ++ c :: b) c = Z.of_nat (length a).
Proof.
  intros Hb. induction a as [|x a IH].
  - cbn [app JS.lastIndexOf]. rewrite (lastIndexOf_absent _ _ Hb).
    simpl. now rewrite Z.eqb_refl.
  - cbn [app JS.lastIndexOf]. rewrite IH.
    destruct (Z.leb_spec 0 (Z.of_nat (length a))); [|lia].
    cbn [length]. lia.
Qed.

(** A string holds no [c], or is cut at its last [c]. *)
Lemma last_occurrence (s : jsstring) (c : codeUnit) :
  ~ In c s \/ exists a b, s = a ++ c :: b /\ ~ In c b.
Proof.
  induction s as [|x s IH]; [now left|].
  destruct IH as [Hs|(a & b & -> & Hb)].
  - destruct (Z.eq_dec x c) as [->|Hx].
    + right. now exists [], s.
    + left. intros [H|H]; [congruence|contradiction].
  - right. now exists (x :: a), b.
Qed.

Lemma endsWith_app (a b : jsstring) : JS.endsWith (a ++ b) b = true.
Proof.
  unfold JS.endsWith. rewrite length_app.
  replace (length a + length b - length b) with (length a + 0) by lia.
  rewrite skipn_app, Nat.add_0_r, skipn_all.
  replace (length a - length a) with 0 by lia.
  cbn [app skipn]. rewrite streq_refl, andb_true_r.
  apply Nat.leb_le. lia.
Qed.

Lemma allSlashes_allSeparators (p : jsstring) :
  forallb (fun char => (char =? slash)%Z) p = true -> allSeparators p = true.
Proof.
  intros H. apply forallb_forall. intros x Hx.
  apply (proj1 (forallb_forall _ _) H) in Hx.
  unfold isSeparator. now rewrite Hx.
Qed.

Lemma basename_None (p : jsstring) : basename p None = lastSegment p.
Proof.
  unfold basename.
  destruct (forallb (fun char => (char =? slash)%Z) p) eqn:F; [|reflexivity].
  symmetry. now apply lastSegment_allSeparators, allSlashes_allSeparators.
Qed.

Lemma extname_cut (p stem e' : jsstring) :
  lastSegment p = stem ++ dot :: e' -> ~ In dot e' ->
  extname p = if isEmpty stem || isEmpty e' then [] else dot :: e'.
Proof.
  intros E He. unfold extname. rewrite E, (lastIndexOf_last _ _ _ He).
  rewrite length_app. cbn [length].
  destruct stem as [|x stem]; [reflexivity|].
  cbn [isEmpty orb].
  replace (Z.of_nat (length (x :: stem)) =? -1)%Z with false
    by (symmetry; apply Z.eqb_neq; lia).
  replace (Z.of_nat (length (x :: stem)) =? 0)%Z with false
    by (symmetry; apply Z.eqb_neq; cbn [length]; lia).
  cbn [orb].
  destruct e' as [|y e'].
  - replace (Z.of_nat (length (x :: stem)) =? _)%Z with true
      by (symmetry; apply Z.eqb_eq; cbn [length]; lia).
    reflexivity.
  - replace (Z.of_nat (length (x :: stem)) =? _)%Z with false
      by (symmetry; apply Z.eqb_neq; cbn [length]; lia).
    unfold JS.substringFrom. rewrite Nat2Z.id.
    rewrite <- (Nat.add_0_r (length (x :: stem))), skipn_app, Nat.add_0_r.
    rewrite skipn_all.
    replace (length (x :: stem) - length (x :: stem)) with 0 by lia.
    reflexivity.
Qed.

(** The extension is what the base name holds from its last [.] on, when
    that [.] is neither the first nor the last code unit of the base name;
    it is empty otherwise, and when the base name has no [.]. *)
Theorem extname_from_last_dot (p : jsstring) :
  (forall stem e',
     basename p None = stem ++ dot :: e' -> ~ In dot e' ->
     stem <> [] -> e' <> [] -> extname p = dot :: e')
  /\ (forall stem e',
        basename p None = stem ++ dot :: e' -> ~ In dot e' ->
        stem = [] \/ e' = [] -> extname p = [])
  /\ (~ In dot (basename p None) -> extname p = []).
Proof.
  rewrite basename_None. repeat split.
  - intros stem e' E He Hs He'. rewrite (extname_cut _ _ _ E He).
    destruct stem, e'; try congruence. reflexivity.
  - intros stem e' E He [-> | ->]; rewrite (extname_cut _ _ _ E He);
      [reflexivity|]. now rewrite orb_true_r.
  - intros H. unfold extname. now rewrite (lastIndexOf_absent _ _ H).
Qed.

Lemma extname_from_last_dot_witness :
  extname (str "/a.b/c.d.tar") = str ".tar"
  /\ extname (str "/a.b/.profile") = str ""
  /\ extname (str "/a.b/c") = str "".
Proof.
  pose proof (extname_from_last_dot (str "/a.b/c.d.tar")) as (H1 & _ & _).
  pose proof (extname_from_last_dot (str "/a.b/.profile")) as (_ & H2 & _).
  pose proof (extname_from_last_dot (str "/a.b/c")) as (_ & _ & H3).
  split; [|split].
  - apply (H1 (str "c.d") (str "tar")); try reflexivity; try discriminate.
    intros H; simpl in H; repeat destruct H as [H|H]; discriminate || exact H.
  - apply (H2 (str "") (str "profile")); try reflexivity; [|now left].
    intros H; simpl in H; repeat destruct H as [H|H]; discriminate || exact H.
  - apply H3.
    intros H; simpl in H; repeat destruct H as [H|H]; discriminate || exact H.
Defined.

(** In what [parse] returns, [name] followed by [ext] is [base]; so
    [format] gives the same string whether it is given [base] or not. *)
Theorem parse_name_ext_base (h : Host) (p : jsstring) :
  name (parse h p) ++ ext (parse h p) = base (parse h p)
  /\ format (mkFormatInput (Some (root (parse h p))) (Some (dir (parse h p)))
                           None (Some (ext (parse h p)))
                           (Some (name (parse h p))))
     = format (asInput (parse h p)).
Proof.
  assert (E : name (parse h p) ++ ext (parse h p) = base (parse h p)).
  { unfold parse. cbn [name ext base]. rewrite basename_None.
    destruct (last_occurrence (lastSegment p) dot) as [H|(a & b & E & Hb)].
    - assert (X : extname p = [])
        by (unfold extname; now rewrite (lastIndexOf_absent _ _ H)).
      rewrite X, app_nil_r. unfold basename.
      destruct (forallb (fun char => (char =? slash)%Z) p) eqn:F; [|reflexivity].
      symmetry. now apply lastSegment_allSeparators, allSlashes_allSeparators.
    - rewrite (extname_cut _ _ _ E Hb).
      destruct (isEmpty a || isEmpty b) eqn:C.
      + rewrite app_nil_r. unfold basename.
        destruct (forallb (fun char => (char =? slash)%Z) p) eqn:F; [|reflexivity].
        symmetry. now apply lastSegment_allSeparators, allSlashes_allSeparators.
      + apply orb_false_iff in C as [Ca Cb].
        unfold basename.
        destruct (forallb (fun char => (char =? slash)%Z) p) eqn:F.
        { apply allSlashes_allSeparators, lastSegment_allSeparators in F.
          rewrite F in E. now destruct a. }
        rewrite E. change (a ++ dot :: b) with (a ++ (dot :: b)).
        rewrite endsWith_app, length_app.
        replace (length (dot :: b) <? length a + length (dot :: b))%nat with true
          by (symmetry; apply Nat.ltb_lt; destruct a; [discriminate|simpl; lia]).
        cbn [isEmpty negb andb]. unfold JS.substringTo.
        replace (length a + length (dot :: b) - length (dot :: b))
          with (length a + 0) by lia.
        now rewrite firstn_app_2, firstn_O, app_nil_r. }
  split; [exact E|].
  unfold format, format_base, asInput. cbn [f_base f_name f_ext format_dir f_dir
                                            f_root orEmpty].
  now rewrite E.
Qed.

(** ** escape: failure, alphabet, fixed points *)

Lemma unescaped_ascii (c : codeUnit) :
  URI.inString c encodeURIUnescaped = true -> (0 <= c < 128)%Z.
Proof.
  intros H. apply existsb_exists in H as (x & Hx & E).
  apply Z.eqb_eq in E as ->.
  assert (F : forallb (fun x => (0 <=? x)%Z && (x <? 128)%Z) encodeURIUnescaped
              = true) by reflexivity.
  apply (proj1 (forallb_forall _ _) F) in Hx. lia.
Qed.

Lemma unescaped_not_surrogate (c : codeUnit) :
  URI.inString c encodeURIUnescaped = true ->
  URI.isTrailingSurrogate c = false /\ URI.isLeadingSurrogate c = false.
Proof.
  intros H%unescaped_ascii.
  unfold URI.isTrailingSurrogate, URI.isLeadingSurrogate. lia.
Qed.

Lemma option_map_None {A B} (f : A -> B) (x : option A) :
  option_map f x = None <-> x = None.
Proof. destruct x; simpl; split; congruence. Qed.

Lemma encodeURI_None (n : nat) :
  forall s, length s <= n ->
    (URI.Encode s (URI.uriReserved ++ str "#") = None
     <-> isWellFormed s = false).
Proof.
  induction n as [|n IH]; intros s Hlen.
  - destruct s; [simpl; split; discriminate|simpl in Hlen; lia].
  - destruct s as [|c rest]; [simpl; split; discriminate|].
    simpl in Hlen. cbn [URI.Encode isWellFormed].
    change (URI.alwaysUnescaped ++ URI.uriReserved ++ str "#")
      with encodeURIUnescaped.
    destruct (URI.inString c encodeURIUnescaped) eqn:U.
    + destruct (unescaped_not_surrogate _ U) as [-> ->].
      rewrite option_map_None. apply IH. lia.
    + destruct (URI.isTrailingSurrogate c); [tauto|].
      destruct (URI.isLeadingSurrogate c).
      * destruct rest as [|second rest']; [tauto|].
        destruct (URI.isTrailingSurrogate second); [|tauto].
        rewrite option_map_None. simpl in Hlen. apply IH. lia.
      * rewrite option_map_None. apply IH. lia.
Qed.

(** [escape] fails (the host throws a URIError) exactly on the strings with
    an unpaired surrogate; on every other string it returns. *)
Theorem escape_fails_iff_unpaired_surrogate (p : jsstring) :
  escape p = None <-> isWellFormed p = false.
Proof. apply (encodeURI_None (length p)). lia. Qed.

Lemma hexDigit_unescaped (n : Z) :
  URI.inString (URI.hexDigit n) encodeURIUnescaped = true.
Proof.
  unfold URI.hexDigit. change 15%Z with (Z.ones 4).
  rewrite Z.land_ones by lia.
  pose proof (Z.mod_pos_bound n (2 ^ 4) ltac:(lia)) as B.
  generalize dependent (n mod 2 ^ 4)%Z. intros d B.
  assert (H : (d = 0 \/ d = 1 \/ d = 2 \/ d = 3 \/ d = 4 \/ d = 5 \/ d = 6
               \/ d = 7 \/ d = 8 \/ d = 9 \/ d = 10 \/ d = 11 \/ d = 12
               \/ d = 13 \/ d = 14 \/ d = 15)%Z) by lia.
  repeat (destruct H as [->|H]; [reflexivity|]). now subst d.
Qed.

Lemma percentEncode_alphabet (octets : list Z) :
  Forall (fun c => c = percent \/ URI.inString c encodeURIUnescaped = true)
         (URI.percentEncode octets).
Proof.
  unfold URI.percentEncode.
  induction octets as [|o octets IH]; [constructor|].
  cbn [flat_map URI.percentOctet app].
  constructor; [now left|].
  constructor; [right; apply hexDigit_unescaped|].
  constructor; [right; apply hexDigit_unescaped|exact IH].
Qed.

Lemma encodeURI_alphabet (n : nat) :
  forall s r, length s <= n ->
    URI.Encode s (URI.uriReserved ++ str "#") = Some r ->
    Forall (fun c => c = percent \/ URI.inString c encodeURIUnescaped = true) r.
Proof.
  induction n as [|n IH]; intros s r Hlen E.
  - destruct s; [|simpl in Hlen; lia]. injection E as <-. constructor.
  - destruct s as [|c rest]; [injection E as <-; constructor|].
    simpl in Hlen. cbn [URI.Encode] in E.
    change (URI.alwaysUnescaped ++ URI.uriReserved ++ str "#")
      with encodeURIUnescaped in E.
    destruct (URI.inString c encodeURIUnescaped) eqn:U.
    + destruct (URI.Encode rest _) as [r'|] eqn:E'; [|discriminate].
      injection E as <-. constructor; [now right|].
      apply (IH rest); [lia|assumption].
    + destruct (URI.isTrailingSurrogate c); [discriminate|].
      destruct (URI.isLeadingSurrogate c).
      * destruct rest as [|second rest']; [discriminate|].
        destruct (URI.isTrailingSurrogate second); [|discriminate].
        destruct (URI.Encode rest' _) as [r'|] eqn:E'; [|discriminate].
        injection E as <-. simpl in Hlen.
        apply Forall_app. split; [apply percentEncode_alphabet|].
        apply (IH rest'); [lia|assumption].
      * destruct (URI.Encode rest _) as [r'|] eqn:E'; [|discriminate].
        injection E as <-.
        apply Forall_app. split; [apply percentEncode_alphabet|].
        apply (IH rest); [lia|assumption].
Qed.

(** What [escape] returns is written with [%] and with the characters
    [encodeURI] leaves as they are (letters, digits, [- _ . ! ~ * ' ( )] and
    [; / ? : @ & = + $ , #]); every code unit of it is ASCII. *)
Theorem escape_alphabet (p r : jsstring) :
  escape p = Some r ->
  Forall (fun c => (c = percent \/ URI.inString c encodeURIUnescaped = true)
                   /\ (0 <= c < 128)%Z) r.
Proof.
  intros E. apply (encodeURI_alphabet (length p)) in E; [|lia].
  eapply Forall_impl; [|exact E]. cbv beta.
  intros c [-> | H]; (split; [auto|]).
  - unfold percent. lia.
  - now apply unescaped_ascii.
Qed.

Lemma escape_alphabet_witness :
  Forall (fun c => (c = percent \/ URI.inString c encodeURIUnescaped = true)
                   /\ (0 <= c < 128)%Z)
         (str "a%20%C3%A9/b").
Proof.
  apply (escape_alphabet (str "a " ++ [233%Z] ++ str "/b")). reflexivity.
Defined.







Lemma escape_fails_iff_unpaired_surrogate_witness :
  escape (str "a" ++ [56832%Z]) = None.
Proof.
  apply (proj2 (escape_fails_iff_unpaired_surrogate (str "a" ++ [56832%Z]))).
  reflexivity.
Defined.

(** ** How join composes with normalize, dirname and basename *)

(** One turn of the fold acts on the names that follow the leading [..],
    whatever the number of those. *)
Lemma normalize_step_names (names : list jsstring) (item : jsstring) :
  Forall isName names -> segment item ->
  exists names',
    Forall isName names'
    /\ forall k, exists k',
         normalize_step (repeat sDotDot k ++ names) item
         = repeat sDotDot k' ++ names'.
Proof.
  intros Hn Hitem. unfold normalize_step.
  destruct (streq_spec item sDot) as [->|Hdot].
  { exists names. split; [exact Hn|]. intros k. now exists k. }
  destruct (streq_spec item sDotDot) as [->|Hdd].
  - destruct names as [|n0 names0] using rev_ind.
    + exists []. split; [constructor|]. intros k. exists (S k).
      rewrite !app_nil_r. destruct k as [|k]; [reflexivity|].
      rewrite lastOpt_repeat, streq_refl.
      change [sDotDot] with (repeat sDotDot 1).
      rewrite <- repeat_app. f_equal. lia.
    + clear IHnames0. apply Forall_app in Hn as [Hn0 Hn1].
      inversion Hn1 as [|? ? (_ & Hnd & Hndd) _]; subst.
      exists names0. split; [exact Hn0|]. intros k. exists k.
      rewrite app_assoc, lastOpt_snoc.
      destruct (streq_spec n0 sDotDot) as [|_]; [contradiction|].
      destruct (streq_spec n0 sDot) as [|_]; [contradiction|].
      now rewrite removelast_last.
  - exists (names ++ [item]). split.
    + apply Forall_app. split; [exact Hn|].
      apply Forall_cons; [|apply Forall_nil]. now split.
    + intros k. exists k. now rewrite app_assoc.
Qed.

Lemma fold_normalize_names (s : list jsstring) :
  Forall segment s ->
  forall names, Forall isName names ->
    exists names',
      Forall isName names'
      /\ forall k, exists k',
           fold_left normalize_step s (repeat sDotDot k ++ names)
           = repeat sDotDot k' ++ names'.
Proof.
  induction 1 as [|item s Hitem Hs IH]; intros names Hn.
  - exists names. split; [exact Hn|]. intros k. now exists k.
  - destruct (normalize_step_names names item Hn Hitem) as (n1 & Hn1 & Hstep).
    destruct (IH n1 Hn1) as (n2 & Hn2 & Hfold).
    exists n2. split; [exact Hn2|]. intros k.
    destruct (Hstep k) as [k1 E1]. destruct (Hfold k1) as [k2 E2].
    exists k2. cbn [fold_left]. now rewrite E1, E2.
Qed.

(** After the fold, the leading [..] of the array it started from are of
    no consequence once shifted. *)
Lemma shiftDots_fold_shifted (s l : list jsstring) :
  Forall segment s -> folded l ->
  shiftDots (fold_left normalize_step s (shiftDots l))
  = shiftDots (fold_left normalize_step s l).
Proof.
  intros Hs (k & names & -> & Hn).
  rewrite (shiftDots_folded _ _ Hn).
  destruct (fold_normalize_names s Hs names Hn) as (names' & Hn' & H).
  destruct (H 0) as [k0 E0]. destruct (H k) as [k1 E1].
  cbn [repeat app] in E0.
  now rewrite E0, E1, !(shiftDots_folded _ _ Hn').
Qed.

Lemma assemble_absolute_shifted (e : bool) (l l' : list jsstring) :
  shiftDots l = shiftDots l' -> assemble true e l = assemble true e l'.
Proof. unfold assemble. now intros ->. Qed.

(** Normalizing the first argument of [join] beforehand changes nothing,
    as long as it does not change whether the joined string is absolute. *)
Theorem join_after_normalize (h : Host) (q c : jsstring) :
  isAbsolute h (normalize h q ++ slash :: c) = isAbsolute h (q ++ slash :: c) ->
  join h [normalize h q; c] = join h [q; c].
Proof.
  intros Ha. cbn [join JS.arrayJoin].
  change (normalize h q ++ sSlash ++ c) with (normalize h q ++ slash :: c).
  change (q ++ sSlash ++ c) with (q ++ slash :: c).
  rewrite (normalize_assemble h (normalize h q ++ slash :: c)).
  rewrite (normalize_assemble h (q ++ slash :: c)), Ha.
  rewrite !(pathSplit_app_sep _ _ _ isSeparator_slash), !fold_left_app.
  rewrite !(endsWith_slash_app _ (slash :: c)) by discriminate.
  pose proof (normalize_folded q) as Hl.
  destruct (isAbsolute h q) eqn:Hq.
  - assert (Hc : isAbsolute h (q ++ slash :: c) = true).
    { rewrite <- Ha. apply isAbsolute_first.
      pose proof (normalize_first h q) as F. rewrite Hq in F.
      destruct (normalize h q); [discriminate|exact F]. }
    rewrite Hc. apply assemble_absolute_shifted.
    rewrite (pathSplit_normalize_absolute _ _ Hq).
    rewrite (fold_normalize_id (shiftDots _) [])
      by (apply folded_shiftDots, Hl).
    cbn [app]. apply shiftDots_fold_shifted; [apply pathSplit_segments|exact Hl].
  - rewrite (normalize_assemble h q), Hq.
    now rewrite fold_assemble_relative by exact Hl.
Qed.

Lemma join_after_normalize_witness :
  join web [normalize web (str "/../a/b/.."); str "../c/"]
  = join web [str "/../a/b/.."; str "../c/"].
Proof.
  apply (join_after_normalize web (str "/../a/b/..") (str "../c/")).
  reflexivity.
Defined.

Lemma not_prefixed_by_origin (h : Host) (s : jsstring) :
  redundantSeparators (origin h) = true ->
  redundantSeparators s = false ->
  JS.startsWith s (origin h) = false.
Proof.
  intros Ho Hs. destruct (JS.startsWith s (origin h)) eqn:S; [|reflexivity].
  apply startsWith_inv in S as [rest ->].
  now rewrite (redundantSeparators_app _ rest Ho) in Hs.
Qed.

Lemma redundantSeparators_cons (c : codeUnit) (s : jsstring) :
  redundantSeparators (c :: s) = false -> redundantSeparators s = false.
Proof. cbn [redundantSeparators]. now intros H%orb_false_iff. Qed.

(** On a site whose origin is of the form scheme://host, joining the
    directory and the base name of a path gives the normalized path, for a
    non-empty path without [\], without two separators side by side and
    without trailing [/]. *)
Theorem join_dirname_basename (h : Host) (p : jsstring) :
  redundantSeparators (origin h) = true ->
  p <> [] ->
  hasBackslash p = false ->
  redundantSeparators p = false ->
  JS.endsWith p sSlash = false ->
  join h [dirname h p; basename p None] = normalize h p.
Proof.
  intros Ho Hne Hb Hr He.
  assert (Habs : forall s, redundantSeparators s = false ->
                   isAbsolute h s = JS.firstIs s slash).
  { intros s Hs. unfold isAbsolute.
    now rewrite (not_prefixed_by_origin h s Ho Hs), orb_false_r. }
  destruct (hasSlash p) eqn:Hs.
  - destruct (split_last_slash p Hs Hb) as (pre & lastf & -> & Hl & Hpre).
    assert (Hlne : lastf <> []).
    { intros ->. rewrite endsWith_slash_snoc in He. discriminate. }
    rewrite (basename_last_slash _ _ Hl Hlne).
    rewrite (dirname_last_slash _ _ Hpre Hl Hlne), (Habs _ Hr).
    destruct pre as [|x pre].
    + cbn [app JS.firstIs]. rewrite Z.eqb_refl.
      cbn [join JS.arrayJoin app].
      rewrite !normalize_assemble.
      change ((sSlash ++ []) ++ sSlash ++ lastf) with (slash :: slash :: lastf).
      rewrite !pathSplit_leading_slash.
      rewrite (isAbsolute_first h (slash :: slash :: lastf)) by reflexivity.
      rewrite (isAbsolute_first h (slash :: lastf)) by reflexivity.
      rewrite (endsWith_slash_cons slash (slash :: lastf)) by discriminate.
      reflexivity.
    + cbn [app JS.firstIs JS.orElse].
      destruct (x =? slash)%Z; reflexivity.
  - pose proof (sepFree_of_no_separator _ Hs Hb) as Hp.
    rewrite (dirname_of_bare_name_eq h p Hs Hb), (Habs _ Hr).
    destruct p as [|x p]; [congruence|].
    inversion Hp as [|? ? Hx Hp']; subst.
    cbn [JS.firstIs]. rewrite (not_separator_slash _ Hx).
    rewrite basename_None.
    assert (Hlast : lastSegment (x :: p) = x :: p).
    { unfold lastSegment. rewrite pathSplit_kept, (fields_of_sepFree _ Hp).
      reflexivity. }
    rewrite Hlast. cbn [join JS.arrayJoin].
    rewrite !normalize_assemble.
    assert (Hr' : redundantSeparators (sDot ++ sSlash ++ x :: p) = false).
    { cbn [app sDot sSlash redundantSeparators]. rewrite Hx.
      apply redundantSeparators_cons in Hr. cbn [redundantSeparators] in Hr.
      now rewrite Hr. }
    rewrite (Habs _ Hr'), (Habs _ Hr).
    cbn [app sDot sSlash JS.firstIs]. rewrite (not_separator_slash _ Hx).
    change (dot :: slash :: x :: p) with ([dot; slash] ++ (x :: p)).
    rewrite (endsWith_slash_app [dot; slash]) by discriminate.
    change ([dot; slash] ++ x :: p) with ([dot] ++ slash :: x :: p).
    rewrite (pathSplit_app_sep _ _ _ isSeparator_slash), fold_left_app.
    reflexivity.
Qed.

Lemma join_dirname_basename_witness :
  join web [dirname web (str "/a/../b/c.txt"); basename (str "/a/../b/c.txt") None]
  = normalize web (str "/a/../b/c.txt").
Proof.
  apply (join_dirname_basename web (str "/a/../b/c.txt"));
    try reflexivity. discriminate.
Defined.
